(** * CharacterSchema: placeholder validation, rename propagation and
      cursor-aware insertion

    A shallow embedding of [src/web/pages/Character/CharacterSchema.tsx].
    The component's signals become the fields of a record, its handlers
    become functions on that record, and the calls it makes to its
    collaborators ([props.update], the stores, the toast store) are
    logged in the surrounding [World].

    JavaScript strings are modelled as lists of characters; the string
    methods the component relies on ([slice], [startsWith], [endsWith],
    [split], [join], [match] with a global pattern) are written out with
    their out-of-range behaviour. *)

From Stdlib Require Import Ascii String ZArith Lia.
From stdpp Require Import base list sorting gmap strings.
From Equations Require Import Equations.

#[local] Set Warnings "-register-all".

Abbreviation str := (list ascii).

(** String literals of the source, as character lists. *)
Definition lit (s : string) : str := list_ascii_of_string s.

(** ** JavaScript string primitives *)

Module JS.

(** Resolution of a relative index against a length, as
    [String.prototype.slice] does it: a negative index counts from the
    end, and both directions are clamped to [0, len]. *)
Definition rel_index (len i : Z) : Z :=
  if (i <? 0)%Z then Z.max (len + i) 0 else Z.min i len.

(** [s.slice(start, finish)]. *)
Definition slice (s : str) (start finish : Z) : str :=
  let len := Z.of_nat (length s) in
  let from := rel_index len start in
  let to := rel_index len finish in
  take (Z.to_nat (to - from)) (drop (Z.to_nat from) s).

(** [s.slice(start)]: the end defaults to the length. *)
Definition slice_from (s : str) (start : Z) : str :=
  slice s start (Z.of_nat (length s)).

(** [s.startsWith(p)] and [s.endsWith(p)]. *)
Definition startsWith (s p : str) : bool := bool_decide (p `prefix_of` s).
Definition endsWith (s p : str) : bool := bool_decide (p `suffix_of` s).

(** [t.split(sep)] for a non-empty separator: pieces between the
    leftmost, non-overlapping occurrences of [sep].  [cur] is the piece
    being accumulated. *)
Equations? split_from (sep cur t : str) : list str by wf (length t) lt :=
  split_from sep cur [] := [cur];
  split_from sep cur (c :: t') with startsWith (c :: t') sep => {
    | true := cur :: split_from sep [] (drop (length sep - 1) t');
    | false := split_from sep (cur ++ [c]) t' }.
Proof.
  all: rewrite ?length_drop; simpl; lia.
Qed.

(** [t.split(sep)]; an empty separator splits into single characters. *)
Definition split (t sep : str) : list str :=
  match sep with
  | [] => (fun c => [c]) <$> t
  | _ :: _ => split_from sep [] t
  end.

(** [l.join(sep)]. *)
Fixpoint join (l : list str) (sep : str) : str :=
  match l with
  | [] => []
  | [x] => x
  | x :: rest => x ++ sep ++ join rest sep
  end.

End JS.

(** ** The placeholder pattern *)

Definition open_brace : ascii := "{"%char.
Definition close_brace : ascii := "}"%char.

Definition is_brace (c : ascii) : Prop := c = open_brace \/ c = close_brace.

(** The longest run of non-brace characters at the head of [t], and what
    follows it: the greedy [[^{}]+] of the pattern. *)
Fixpoint name_run (t : str) : str * str :=
  match t with
  | [] => ([], [])
  | c :: t' =>
      if decide (is_brace c) then ([], t)
      else let '(n, r) := name_run t' in (c :: n, r)
  end.

(** Modelled from the spec: [JSON_NAME_RE] of [/common/util] is not among
    the sources; the spec gives its grammar as [\{\{([^{}]+)\}\}], used
    with the global flag.  [JSON_NAME_RE_at t] is the text matched when
    the pattern is tried at the head of [t].  The run of name characters
    is taken greedily; giving characters back could never help, since the
    character after a shorter run is not a brace. *)
Definition JSON_NAME_RE_at (t : str) : option str :=
  match t with
  | "{"%char :: "{"%char :: r =>
      match name_run r with
      | (c :: n, "}"%char :: "}"%char :: _) =>
          Some (lit "{{" ++ (c :: n) ++ lit "}}")
      | _ => None
      end
  | _ => None
  end.

(** All matches of the global pattern, left to right: after a match the
    scan resumes right behind it, after a failure one character on. *)
Equations? match_all (t : str) : list str by wf (length t) lt :=
  match_all [] := [];
  match_all (c :: t') with JSON_NAME_RE_at (c :: t') => {
    | Some m := m :: match_all (drop (length m - 1) t');
    | None := match_all t' }.
Proof.
  all: rewrite ?length_drop; simpl; lia.
Qed.

(** [t.match(JSON_NAME_RE())]: the array of matched texts, or [null]
    when there is none. *)
Definition str_match (t : str) : option (list str) :=
  match match_all t with
  | [] => None
  | ms => Some ms
  end.

(** ** Validation *)

(** The loop of the validation effect: the names of the matches that
    the name set does not have, in order. *)
Fixpoint collect_bad (names : gset str) (vars : list str) : list str :=
  match vars with
  | [] => []
  | res :: rest =>
      let name := JS.slice res 2 (-2) in
      if decide (name ∈ names) then collect_bad names rest
      else name :: collect_bad names rest
  end.

(** [bad.length ? bad.join(', ') : ''] *)
Definition err_text (bad : list str) : str :=
  match bad with
  | [] => lit ""
  | _ :: _ => JS.join bad (lit ", ")
  end.

(** ** What the specification says about placeholders *)

(** A placeholder name: not empty, no brace in it. *)
Definition valid_name (n : str) : Prop :=
  n <> [] /\ Forall (fun c => ~ is_brace c) n.

(** The text of the placeholder for [n]: [`{{${n}}}`]. *)
Definition token (n : str) : str := lit "{{" ++ n ++ lit "}}".

(** The substring of [t] that starts at offset [i] is the placeholder
    for the name [n]. *)
Definition Occurs (t : str) (i : nat) (n : str) : Prop :=
  exists pre post,
    t = pre ++ token n ++ post /\ length pre = i /\ valid_name n.

(** Two entries (offset, name) that do not overlap, the first ending
    before the second starts. *)
Definition before_entry (p q : nat * str) : Prop :=
  p.1 + length p.2 + 4 <= q.1.

(** ** Data model *)

(** JSON values, as [JSON.parse] produces them. *)
Inductive json : Type :=
| JNull
| JBool (b : bool)
| JNum (z : Z)
| JStr (s : str)
| JArr (items : list json)
| JObj (props : list (str * json)).

(** Modelled from the spec: the declaration of [JsonField] in
    [/common/prompt] is not among the sources; the spec gives a field a
    [name] and a [type] next to further metadata. *)
Record JsonField := { name : str; type : json }.

(** Modelled from the spec: [ResponseSchema] of [/common/types/library],
    the triple that is imported, exported and committed. *)
Record ResponseSchema := {
  rs_schema : list JsonField;
  rs_response : str;
  rs_history : str
}.

(** The two template buffers. *)
Inductive Buffer := Response | History.

(** The value [auto()] holds while the suggestions of a buffer show. *)
Definition buffer_name (b : Buffer) : str :=
  match b with
  | Response => lit "response"
  | History => lit "history"
  end.

Definition other (b : Buffer) : Buffer :=
  match b with
  | Response => History
  | History => Response
  end.

(** A textarea of the page: its text and its caret. *)
Record TextArea := { value : str; selectionStart : Z }.

(** The signals of the component. *)
Record Signals := {
  show : bool;
  schema : list JsonField;
  showImport : bool;
  response : str;
  hist : str;
  candidate : list JsonField;
  auto : str;
  hotkey : bool;
  resErr : str;
  histErr : str
}.

(** The properties the parent passes in; [props.update] is a callback,
    its calls are logged in the [World]. *)
Record Props := {
  characterId : option str;
  presetId : option str;
  inherit : option ResponseSchema
}.

(** The component in its surroundings: signals, the two textareas, and
    the calls made to the collaborators so far, oldest first. *)
Record World := {
  sig : Signals;
  respRef : TextArea;
  histRef : TextArea;
  updates : list ResponseSchema;
  characterEdits : list (str * ResponseSchema);
  presetUpdates : list (str * ResponseSchema);
  toasts : list str
}.

(** Everything that left the session towards the parent and persistence. *)
Definition committed (w : World) :
  list ResponseSchema * list (str * ResponseSchema) * list (str * ResponseSchema) :=
  (updates w, characterEdits w, presetUpdates w).

(** *** Writing one field *)

Definition with_show (v : bool) (s : Signals) : Signals :=
  {| show := v; schema := schema s; showImport := showImport s;
     response := response s; hist := hist s; candidate := candidate s;
     auto := auto s; hotkey := hotkey s; resErr := resErr s;
     histErr := histErr s |}.

Definition with_schema (v : list JsonField) (s : Signals) : Signals :=
  {| show := show s; schema := v; showImport := showImport s;
     response := response s; hist := hist s; candidate := candidate s;
     auto := auto s; hotkey := hotkey s; resErr := resErr s;
     histErr := histErr s |}.

Definition with_showImport (v : bool) (s : Signals) : Signals :=
  {| show := show s; schema := schema s; showImport := v;
     response := response s; hist := hist s; candidate := candidate s;
     auto := auto s; hotkey := hotkey s; resErr := resErr s;
     histErr := histErr s |}.

Definition with_response (v : str) (s : Signals) : Signals :=
  {| show := show s; schema := schema s; showImport := showImport s;
     response := v; hist := hist s; candidate := candidate s;
     auto := auto s; hotkey := hotkey s; resErr := resErr s;
     histErr := histErr s |}.

Definition with_hist (v : str) (s : Signals) : Signals :=
  {| show := show s; schema := schema s; showImport := showImport s;
     response := response s; hist := v; candidate := candidate s;
     auto := auto s; hotkey := hotkey s; resErr := resErr s;
     histErr := histErr s |}.

Definition with_candidate (v : list JsonField) (s : Signals) : Signals :=
  {| show := show s; schema := schema s; showImport := showImport s;
     response := response s; hist := hist s; candidate := v;
     auto := auto s; hotkey := hotkey s; resErr := resErr s;
     histErr := histErr s |}.

Definition with_auto (v : str) (s : Signals) : Signals :=
  {| show := show s; schema := schema s; showImport := showImport s;
     response := response s; hist := hist s; candidate := candidate s;
     auto := v; hotkey := hotkey s; resErr := resErr s;
     histErr := histErr s |}.

Definition with_hotkey (v : bool) (s : Signals) : Signals :=
  {| show := show s; schema := schema s; showImport := showImport s;
     response := response s; hist := hist s; candidate := candidate s;
     auto := auto s; hotkey := v; resErr := resErr s;
     histErr := histErr s |}.

Definition with_resErr (v : str) (s : Signals) : Signals :=
  {| show := show s; schema := schema s; showImport := showImport s;
     response := response s; hist := hist s; candidate := candidate s;
     auto := auto s; hotkey := hotkey s; resErr := v;
     histErr := histErr s |}.

Definition with_histErr (v : str) (s : Signals) : Signals :=
  {| show := show s; schema := schema s; showImport := showImport s;
     response := response s; hist := hist s; candidate := candidate s;
     auto := auto s; hotkey := hotkey s; resErr := resErr s;
     histErr := v |}.

Definition with_sig (f : Signals -> Signals) (w : World) : World :=
  {| sig := f (sig w); respRef := respRef w; histRef := histRef w;
     updates := updates w; characterEdits := characterEdits w;
     presetUpdates := presetUpdates w; toasts := toasts w |}.

Definition ref_of (b : Buffer) (w : World) : TextArea :=
  match b with
  | Response => respRef w
  | History => histRef w
  end.

Definition with_ref (b : Buffer) (r : TextArea) (w : World) : World :=
  match b with
  | Response =>
      {| sig := sig w; respRef := r; histRef := histRef w;
         updates := updates w; characterEdits := characterEdits w;
         presetUpdates := presetUpdates w; toasts := toasts w |}
  | History =>
      {| sig := sig w; respRef := respRef w; histRef := r;
         updates := updates w; characterEdits := characterEdits w;
         presetUpdates := presetUpdates w; toasts := toasts w |}
  end.

(** [ref.value = v]; the caret is left where the page has it. *)
Definition with_value (b : Buffer) (v : str) (w : World) : World :=
  with_ref b {| value := v; selectionStart := selectionStart (ref_of b w) |} w.

(** [ref.setSelectionRange(n, n, 'none')] *)
Definition setSelectionRange (b : Buffer) (n : Z) (w : World) : World :=
  with_ref b {| value := value (ref_of b w); selectionStart := n |} w.

(** The text signal of a buffer. *)
Definition text_of (b : Buffer) (s : Signals) : str :=
  match b with
  | Response => response s
  | History => hist s
  end.

(** The diagnostic signal of a buffer. *)
Definition err_of (b : Buffer) (s : Signals) : str :=
  match b with
  | Response => resErr s
  | History => histErr s
  end.

(** ** The validation effect and the tracked signals *)

(** [new Set(sch.map((s) => s.name))] *)
Definition name_set (sch : list JsonField) : gset str :=
  list_to_set (name <$> sch).

(** The body of the validation effect.  Each diagnostic is written only
    when its buffer has at least one match. *)
Definition validation_effect (s : Signals) : Signals :=
  let resVars := str_match (response s) in
  let histVars := str_match (hist s) in
  let names := name_set (candidate s) in
  let s1 :=
    match resVars with
    | Some vars => with_resErr (err_text (collect_bad names vars)) s
    | None => s
    end in
  match histVars with
  | Some vars => with_histErr (err_text (collect_bad names vars)) s1
  | None => s1
  end.

(** A write to a signal the effect reads re-runs the effect, unless the
    new value is identical to the old one.  Strings are compared by
    value. *)
Definition setResponse (v : str) (s : Signals) : Signals :=
  if decide (v = response s) then s
  else validation_effect (with_response v s).

Definition setHistory (v : str) (s : Signals) : Signals :=
  if decide (v = hist s) then s
  else validation_effect (with_hist v s).

(** Arrays are compared by identity; every array handed to
    [setCandidate] is a fresh one, so the effect always re-runs. *)
Definition setCandidate (v : list JsonField) (s : Signals) : Signals :=
  validation_effect (with_candidate v s).

(** The setter a suggestion list is wired to. *)
Definition setter_of (b : Buffer) : str -> Signals -> Signals :=
  match b with
  | Response => setResponse
  | History => setHistory
  end.

(** The diagnostic a buffer would get from a validation of text [t]
    against the fields [sch], computed from scratch. *)
Definition fresh_diagnostic (t : str) (sch : list JsonField) : str :=
  match str_match t with
  | Some vars => err_text (collect_bad (name_set sch) vars)
  | None => lit ""
  end.

(** ** Rename propagation *)

(** [text.split(`{{${from}}}`).join(`{{${to}}}`)] *)
Definition rename_in (text from to : str) : str :=
  JS.join (JS.split text (token from)) (token to).

Definition onFieldNameChange (from to : str) (w : World) : World :=
  let res := rename_in (response (sig w)) from to in
  let his := rename_in (hist (sig w)) from to in
  let w := with_value History his w in
  let w := with_value Response res w in
  let w := with_sig (setResponse res) w in
  with_sig (setHistory his) w.

(** ** Cursor-aware insertion *)

(** [prev.slice(0, ref.selectionStart - (hotkey() ? 0 : 1))] *)
Definition split_before (hk : bool) (prev : str) (caret : Z) : str :=
  JS.slice prev 0 (caret - (if hk then 0 else 1)).

(** [prev.slice(ref.selectionStart)] *)
Definition split_after (prev : str) (caret : Z) : str :=
  JS.slice_from prev caret.

(** The three-way test on the end of [before]. *)
Definition normalize_left (before : str) : str :=
  if JS.endsWith before (lit "{{") then before
  else if JS.endsWith before (lit "{") then before ++ lit "{"
  else if negb (JS.endsWith before (lit "{")) then before ++ lit "{{"
  else before.

Definition normalize_right (after : str) : str :=
  if negb (JS.startsWith after (lit "}")) then lit "}}" ++ after
  else after.

(** The new text and the new caret. *)
Definition insertion (hk : bool) (prev : str) (caret : Z) (label : str) : str * Z :=
  let before := normalize_left (split_before hk prev caret) in
  let after := normalize_right (split_after prev caret) in
  (before ++ label ++ after,
   (Z.of_nat (length before) + Z.of_nat (length label))%Z).

(** The textarea [auto()] points at, if any. *)
Definition auto_ref (s : Signals) : option Buffer :=
  if decide (auto s = lit "history") then Some History
  else if decide (auto s = lit "response") then Some Response
  else None.

(** [onAutoComplete(setter)(opt)]; [label] is [opt.label]. *)
Definition onAutoComplete (setter : str -> Signals -> Signals) (label : str)
    (w : World) : World :=
  let w :=
    match auto_ref (sig w) with
    | Some b =>
        let ref := ref_of b w in
        let '(next, pos) :=
          insertion (hotkey (sig w)) (value ref) (selectionStart ref) label in
        let w := with_value b next w in
        let w := with_sig (setter next) w in
        setSelectionRange b pos w
    | None => w
    end in
  let w := with_sig (with_hotkey false) w in
  with_sig (with_auto (lit "")) w.

(** ** Commit and import *)

Definition log_update (u : ResponseSchema) (w : World) : World :=
  {| sig := sig w; respRef := respRef w; histRef := histRef w;
     updates := updates w ++ [u]; characterEdits := characterEdits w;
     presetUpdates := presetUpdates w; toasts := toasts w |}.

Definition log_characterEdit (id : str) (u : ResponseSchema) (w : World) : World :=
  {| sig := sig w; respRef := respRef w; histRef := histRef w;
     updates := updates w; characterEdits := characterEdits w ++ [(id, u)];
     presetUpdates := presetUpdates w; toasts := toasts w |}.

Definition log_presetUpdate (id : str) (u : ResponseSchema) (w : World) : World :=
  {| sig := sig w; respRef := respRef w; histRef := histRef w;
     updates := updates w; characterEdits := characterEdits w;
     presetUpdates := presetUpdates w ++ [(id, u)]; toasts := toasts w |}.

Definition log_toast (msg : str) (w : World) : World :=
  {| sig := sig w; respRef := respRef w; histRef := histRef w;
     updates := updates w; characterEdits := characterEdits w;
     presetUpdates := presetUpdates w; toasts := toasts w ++ [msg] |}.

(** An optional identifier that passes [if (id)]: present and not the
    empty string. *)
Definition truthy (id : option str) : option str :=
  match id with
  | Some (c :: rest) => Some (c :: rest)
  | _ => None
  end.

(** [close(save)] *)
Definition close (p : Props) (save : bool) (w : World) : World :=
  let w :=
    if save then
      let update :=
        {| rs_history := hist (sig w); rs_response := response (sig w);
           rs_schema := candidate (sig w) |} in
      let w := log_update update w in
      let w := with_sig (with_schema (candidate (sig w))) w in
      let w :=
        match truthy (characterId p) with
        | Some id => log_characterEdit id update w
        | None => w
        end in
      match truthy (presetId p) with
      | Some id => log_presetUpdate id update w
      | None => w
      end
    else w in
  let w := with_sig (with_histErr (lit "")) w in
  let w := with_sig (with_resErr (lit "")) w in
  with_sig (with_show false) w.

(** [importSchema(schema)] *)
Definition importSchema (p : Props) (imported : option ResponseSchema)
    (w : World) : World :=
  let w := with_sig (with_showImport false) w in
  match imported with
  | None => w
  | Some rs =>
      let w := with_sig (setCandidate (rs_schema rs)) w in
      let w := with_sig (setHistory (rs_history rs)) w in
      let w := with_sig (setResponse (rs_response rs)) w in
      close p true w
  end.

(** ** The import dialog *)

(** The shapes handed to [assertValid], as the source writes them:
    ['string'], ['any'], [[v]] and [{ k: v, ... }]. *)
Inductive validator : Type :=
| VString
| VAny
| VArr (elem : validator)
| VObj (fields : list (str * validator)).

(** [j[k]] on an object; [undefined] is not a JSON value, so a missing
    property is [None]. *)
Fixpoint prop_of (props : list (str * json)) (k : str) : option json :=
  match props with
  | [] => None
  | (k', v) :: rest => if decide (k' = k) then Some v else prop_of rest k
  end.

Definition get (j : json) (k : string) : option json :=
  match j with
  | JObj props => prop_of props (lit k)
  | _ => None
  end.

(** Modelled from the spec: [assertValid] of [/common/valid] is not among
    the sources.  The spec calls it a shape check that rejects malformed
    or missing required keys and types: a value has the shape of a
    validator when it is a string for ['string'], anything for ['any'],
    an array of values of the element shape for [[v]], and an object
    that has every listed key with a value of that key's shape for
    [{ k: v, ... }]. *)
Fixpoint shape_ok (v : validator) (j : json) : bool :=
  match v with
  | VString => match j with JStr _ => true | _ => false end
  | VAny => true
  | VArr elem =>
      match j with
      | JArr items => forallb (shape_ok elem) items
      | _ => false
      end
  | VObj fields =>
      match j with
      | JObj props =>
          forallb (fun kv : str * validator =>
                     match prop_of props kv.1 with
                     | Some x => shape_ok kv.2 x
                     | None => false
                     end) fields
      | _ => false
      end
  end.

(** [{ response: 'string', history: 'string', schema: ['any'] }] *)
Definition import_shape : validator :=
  VObj [(lit "response", VString); (lit "history", VString);
        (lit "schema", VArr VAny)].

(** [{ type: { type: 'string' }, name: 'string' }] *)
Definition field_shape : validator :=
  VObj [(lit "type", VObj [(lit "type", VString)]); (lit "name", VString)].

(** What a file handed to the dialog turns out to be: no file at all,
    text that [JSON.parse] rejects with a message, or a JSON value. *)
Inductive upload : Type :=
| NoFile
| Unparsable (message : str)
| Parsed (j : json).

(** Code that may throw: the message of the error, or a result. *)
Definition throws (A : Type) : Type := str + A.

Definition ret {A : Type} (a : A) : throws A := inr a.
Definition throw {A : Type} (message : str) : throws A := inl message.
Definition bind {A B : Type} (m : throws A) (k : A -> throws B) : throws B :=
  match m with
  | inl message => inl message
  | inr a => k a
  end.

Notation "'let*' x := m 'in' k" := (bind m (fun x => k))
  (at level 10, x name, m at level 100, k at level 200).

(** The in-memory value behind a validated document. *)
Definition as_string (j : option json) : str :=
  match j with
  | Some (JStr s) => s
  | _ => []
  end.

Definition as_field (j : json) : JsonField :=
  {| name := as_string (get j "name");
     type := default JNull (get j "type") |}.

Definition as_fields (j : option json) : list JsonField :=
  match j with
  | Some (JArr items) => as_field <$> items
  | _ => []
  end.

Definition as_ResponseSchema (j : json) : ResponseSchema :=
  {| rs_schema := as_fields (get j "schema");
     rs_response := as_string (get j "response");
     rs_history := as_string (get j "history") |}.

Section ImportModal.

(** The text of the error [assertValid] throws is not known here. *)
Variable valid_message : validator -> json -> str.

Definition assertValid (v : validator) (j : json) : throws unit :=
  if shape_ok v j then ret tt else throw (valid_message v j).

(** [for (const field of json.schema) assertValid(..., field)] *)
Fixpoint assertValid_each (v : validator) (items : list json) : throws unit :=
  match items with
  | [] => ret tt
  | field :: rest =>
      let* checked := assertValid v field in assertValid_each v rest
  end.

(** The body of the [try] block up to the call of [props.close]. *)
Definition parse_and_check (file : upload) : throws json :=
  let* json :=
    match file with
    | Parsed j => ret j
    | Unparsable message => throw message
    | NoFile => throw (lit "")
    end in
  let* top_checked := assertValid import_shape json in
  let* fields_checked :=
    match get json "schema" with
    | Some (JArr items) => assertValid_each field_shape items
    | _ => throw (lit "json.schema is not iterable")
    end in
  ret json.

(** [ImportModal.onUpdate]; [close_] is [props.close]. *)
Definition onUpdate (close_ : option ResponseSchema -> World -> World)
    (file : upload) (w : World) : World :=
  match file with
  | NoFile => w
  | _ =>
      match parse_and_check file with
      | inr json => close_ (Some (as_ResponseSchema json)) w
      | inl message => log_toast (lit "Invalid JSON Schema: " ++ message) w
      end
  end.

End ImportModal.

(** ** The session as a transition system *)

Record KeyboardEvent := { key : str; ctrlKey : bool; code : str }.

(** The [onKeyDown] handler of a textarea. *)
Definition onKeyDown (b : Buffer) (ev : KeyboardEvent) (s : Signals) : Signals :=
  let s :=
    if decide (key ev = lit "{") then with_auto (buffer_name b) s else s in
  if ctrlKey ev && bool_decide (code ev = lit "Space")
  then with_auto (buffer_name b) (with_hotkey true s)
  else s.

(** The effect on [props.inherit]: its writes are batched, the
    validation runs once after them if a text changed. *)
Definition onInherit (next : option ResponseSchema) (s : Signals) : Signals :=
  match next with
  | None => s
  | Some rs =>
      let s' :=
        with_response (rs_response rs)
          (with_hist (rs_history rs) (with_schema (rs_schema rs) s)) in
      if decide (rs_response rs = response s /\ rs_history rs = hist s)
      then s'
      else validation_effect s'
  end.

(** What can happen to the component. *)
Inductive Event : Type :=
| ClickUpdateSchema
| ClickImport
| ModalClose
| ClickCancel
| ClickAccept
| KeyDown (b : Buffer) (ev : KeyboardEvent)
| InputText (b : Buffer) (text : str) (caret : Z)
| MoveCaret (b : Buffer) (caret : Z)
| AutoSelect (b : Buffer) (label : str)
| AutoClose (b : Buffer)
| SchemaUpdate (fields : list JsonField)
| NameChange (from to : str)
| ImportClose
| ImportFile (file : upload)
| InheritChanged (next : option ResponseSchema).

(** One event.  [valid_message] gives the text of the errors of
    [assertValid]. *)
Definition step (valid_message : validator -> json -> str)
    (p : Props) (e : Event) (w : World) : World :=
  match e with
  | ClickUpdateSchema => with_sig (with_show true) w
  | ClickImport => with_sig (with_showImport true) w
  | ModalClose => with_sig (with_show false) w
  | ClickCancel => close p false w
  | ClickAccept => close p true w
  | KeyDown b ev => with_sig (onKeyDown b ev) w
  | InputText b text caret =>
      let w := with_ref b {| value := text; selectionStart := caret |} w in
      with_sig (setter_of b text) w
  | MoveCaret b caret => setSelectionRange b caret w
  | AutoSelect b label =>
      if decide (auto (sig w) = buffer_name b)
      then onAutoComplete (setter_of b) label w
      else w
  | AutoClose b =>
      if decide (auto (sig w) = buffer_name b)
      then with_sig (with_auto (lit "")) w
      else w
  | SchemaUpdate fields => with_sig (setCandidate fields) w
  | NameChange from to => onFieldNameChange from to w
  | ImportClose => importSchema p None w
  | ImportFile file => onUpdate valid_message (importSchema p) file w
  | InheritChanged next => with_sig (onInherit next) w
  end.

(** The component right after it is mounted with [p]. *)
Definition init (p : Props) : World :=
  let inherited := default {| rs_schema := []; rs_response := []; rs_history := [] |}
                     (inherit p) in
  {| sig := validation_effect
              {| show := false; schema := rs_schema inherited;
                 showImport := false; response := rs_response inherited;
                 hist := rs_history inherited; candidate := [];
                 auto := lit ""; hotkey := false;
                 resErr := lit ""; histErr := lit "" |};
     respRef := {| value := rs_response inherited; selectionStart := 0 |};
     histRef := {| value := rs_history inherited; selectionStart := 0 |};
     updates := []; characterEdits := []; presetUpdates := []; toasts := [] |}.

(** The states a session mounted with [p] can get into. *)
Inductive reachable (valid_message : validator -> json -> str) (p : Props) :
  World -> Prop :=
| reachable_init : reachable valid_message p (init p)
| reachable_step e w :
    reachable valid_message p w -> reachable valid_message p (step valid_message p e w).

(** A buffer shows its suggestions. *)
Definition suggesting (b : Buffer) (w : World) : Prop :=
  auto (sig w) = buffer_name b.

(** An entry moved [k] characters to the right. *)
Definition shift_entry (k : nat) (p : nat * str) : nat * str := (k + p.1, p.2).

(** ** A text as literal characters and placeholders *)

Inductive piece : Type :=
| Lit (c : ascii)
| Placeholder (n : str).

(** The text cut at the matches of the pattern, scanned the way
    [match_all] scans. *)
Equations? pieces (t : str) : list piece by wf (length t) lt :=
  pieces [] := [];
  pieces (c :: t') with JSON_NAME_RE_at (c :: t') => {
    | Some m := Placeholder (JS.slice m 2 (-2)) :: pieces (drop (length m - 1) t');
    | None := Lit c :: pieces t' }.
Proof.
  all: rewrite ?length_drop; simpl; lia.
Qed.

Definition piece_text (p : piece) : str :=
  match p with
  | Lit c => [c]
  | Placeholder n => token n
  end.

Definition pieces_text (ps : list piece) : str := concat (piece_text <$> ps).

(** The names of the placeholders among the pieces, in order. *)
Definition piece_name (p : piece) : option str :=
  match p with
  | Lit _ => None
  | Placeholder n => Some n
  end.

(** A placeholder for [from] becomes one for [to]; nothing else changes. *)
Definition relabel (from to : str) (p : piece) : piece :=
  match p with
  | Lit c => Lit c
  | Placeholder n => if decide (n = from) then Placeholder to else Placeholder n
  end.

(** ** Notions used in the statements *)

#[global] Instance valid_name_dec n : Decision (valid_name n).
Proof. unfold valid_name, is_brace. apply _. Defined.

(** The states of the suggestion trigger: idle, or suggesting in one
    buffer. *)
Definition trigger_ok (s : Signals) : Prop :=
  auto s = lit "" \/ exists b, auto s = buffer_name b.

(** A key that opens the suggestions: the opening brace, or control
    and space. *)
Definition opens_suggestions (ev : KeyboardEvent) : Prop :=
  key ev = lit "{" \/ (ctrlKey ev = true /\ code ev = lit "Space").

(** The unresolved names of a text: the names of its placeholders that
    are not in the name set, repeats kept, in order. *)
Definition unresolved (t : str) (names : gset str) : list str :=
  filter (fun n => n ∉ names) (omap piece_name (pieces t)).

(** The shape an imported document must have for the dialog to hand it
    on: the two checks of the dialog taken together. *)
Definition document_shape : validator :=
  VObj [(lit "response", VString); (lit "history", VString);
        (lit "schema", VArr field_shape)].

(** The shape as the specification words it, with a string for the
    type of a field. *)
Definition spec_document_shape : validator :=
  VObj [(lit "response", VString); (lit "history", VString);
        (lit "schema",
         VArr (VObj [(lit "name", VString); (lit "type", VString)]))].

(** A document with one field [hp] of type string and a response
    template that refers to it. *)
Definition hp_document : json :=
  JObj [(lit "response", JStr (lit "HP: {{hp}}"));
        (lit "history", JStr (lit "{{hp}}"));
        (lit "schema",
         JArr [JObj [(lit "name", JStr (lit "hp"));
                     (lit "type", JObj [(lit "type", JStr (lit "string"))])]])].

(** ** Sample sessions *)

(** A session that inherits two templates and a field [hp]. *)
Definition hp_props : Props :=
  {| characterId := None; presetId := None;
     inherit := Some {| rs_schema := [ {| name := lit "hp"; type := JNull |} ];
                        rs_response := lit "HP: {{hp}}% {{mp}}";
                        rs_history := lit "{{hp}} of {{hpx}}" |} |}.

(** A session without an inherited schema. *)
Definition empty_props : Props :=
  {| characterId := None; presetId := None; inherit := None |}.

Definition ctrl_space : KeyboardEvent :=
  {| key := lit " "; ctrlKey := true; code := lit "Space" |}.

Definition open_brace_key : KeyboardEvent :=
  {| key := lit "{"; ctrlKey := false; code := lit "BracketLeft" |}.

(** The response buffer holds [{{}}] with the caret in the middle and
    shows its suggestions after the hotkey. *)
Definition braces_world : World :=
  with_sig (onKeyDown Response ctrl_space)
    (with_ref Response {| value := lit "{{}}"; selectionStart := 2 |}
       (init empty_props)).

(** The response buffer is empty and shows its suggestions after the
    hotkey. *)
Definition hotkey_world : World :=
  with_sig (onKeyDown Response ctrl_space) (init empty_props).

(** The response buffer after the user has typed [{{mp}}] in a session
    without fields. *)
Definition mp_world : World :=
  step (fun _ _ => []) empty_props (InputText Response (lit "{{mp}}") 6)
    (init empty_props).

(** ** Further notions *)

(** The names of the placeholders of a text, in order, repeats kept. *)
Definition placeholder_names (t : str) : list str :=
  omap piece_name (pieces t).

(** A text without the one or two opening braces it ends with. *)
Definition chop_open_braces (s : str) : str :=
  if JS.endsWith s (lit "{{") then take (length s - 2) s
  else if JS.endsWith s (lit "{") then take (length s - 1) s
  else s.

(** The triple the session would commit: texts and candidate fields. *)
Definition candidate_triple (s : Signals) : ResponseSchema :=
  {| rs_schema := candidate s; rs_response := response s; rs_history := hist s |}.

(** The call a store gets when its identifier is set. *)
Definition store_call (id : option str) (u : ResponseSchema) :
  list (str * ResponseSchema) :=
  match truthy id with
  | Some i => [(i, u)]
  | None => []
  end.

(** [filename()] *)
Definition filename (p : Props) : str :=
  match truthy (characterId p) with
  | Some id => lit "schema-char-" ++ JS.slice id 0 4
  | None =>
      match truthy (presetId p) with
      | Some id => lit "schema-preset-" ++ JS.slice id 0 4
      | None => lit "schema"
      end
  end.

(** A document whose second field has no name and whose third field
    has no type. *)
Definition two_bad_fields_document : json :=
  JObj [(lit "response", JStr (lit "{{hp}}"));
        (lit "history", JStr (lit ""));
        (lit "schema",
         JArr [JObj [(lit "name", JStr (lit "hp"));
                     (lit "type", JObj [(lit "type", JStr (lit "string"))])];
               JObj [(lit "type", JObj [(lit "type", JStr (lit "string"))])];
               JObj [(lit "name", JStr (lit "mp"))]])].

(** No placeholder of the text [pre ++ post] extends across the place
    between [pre] and [post]: each one ends in [pre] or starts in
    [post]. *)
Definition caret_outside_placeholders (pre post : str) : Prop :=
  forall i n, Occurs (pre ++ post) i n ->
    i + length (token n) <= length pre \/ length pre <= i.

(** The same, as a check that runs: at no offset in [pre] does the
    pattern match a text that ends behind [pre]. *)
Definition caret_outside_check (pre post : str) : bool :=
  forallb (fun i =>
             match JSON_NAME_RE_at (drop i (pre ++ post)) with
             | Some m => i + length m <=? length pre
             | None => true
             end) (seq 0 (length pre)).

(** * Properties *)

(** ** Facts about the pattern *)

Lemma token_cons n : token n = open_brace :: open_brace :: n ++ [close_brace; close_brace].
Proof. reflexivity. Qed.

Lemma token_length n : length (token n) = length n + 4.
Proof. rewrite token_cons. simpl. rewrite length_app. simpl. lia. Qed.

Lemma open_is_brace : is_brace open_brace.
Proof. by left. Qed.

Lemma close_is_brace : is_brace close_brace.
Proof. by right. Qed.

#[local] Hint Resolve open_is_brace close_is_brace : core.

(** The run stops at the first brace. *)
Lemma name_run_app n r :
  Forall (fun c => ~ is_brace c) n ->
  match r with [] => True | c :: _ => is_brace c end ->
  name_run (n ++ r) = (n, r).
Proof.
  intros Hn Hr. induction Hn as [|c n Hc Hn IH]; cbn [name_run app].
  - destruct r as [|c r]; [done|]. cbn [name_run]. by rewrite decide_True.
  - rewrite decide_False by done. by rewrite IH.
Qed.

Lemma name_run_inv t n r :
  name_run t = (n, r) ->
  t = n ++ r /\ Forall (fun c => ~ is_brace c) n /\
  match r with [] => True | c :: _ => is_brace c end.
Proof.
  revert n r. induction t as [|c t IH]; cbn [name_run]; intros n r H.
  - by inversion H.
  - destruct (decide (is_brace c)) as [Hc|Hc].
    + inversion H; subst. by repeat split.
    + destruct (name_run t) as [n' r'] eqn:E. inversion H; subst.
      destruct (IH n' r eq_refl) as (-> & Hn & Hr).
      repeat split; [|done]. by constructor.
Qed.

(** When the pattern matches at the head of a text. *)
Lemma JSON_NAME_RE_at_token n post :
  valid_name n -> JSON_NAME_RE_at (token n ++ post) = Some (token n).
Proof.
  intros [Hne Hn]. rewrite token_cons. cbn [app JSON_NAME_RE_at open_brace].
  rewrite <- app_assoc. rewrite name_run_app; [|done|simpl; auto].
  destruct n; [done|]. reflexivity.
Qed.

(** Case analysis on whether a character is a given one, when the other
    case makes a hypothesis absurd by computation. *)
Ltac pin_char c ch :=
  let Hne := fresh "Hne" in
  destruct (decide (c = ch)) as [->|Hne];
  [| exfalso; destruct c as [[] [] [] [] [] [] [] []]; done].

Lemma JSON_NAME_RE_at_Some t m :
  JSON_NAME_RE_at t = Some m ->
  exists n post, valid_name n /\ m = token n /\ t = token n ++ post.
Proof.
  unfold JSON_NAME_RE_at. intros H.
  destruct t as [|c0 [|c1 r]]; try done.
  { by destruct c0 as [[] [] [] [] [] [] [] []]. }
  pin_char c0 open_brace. pin_char c1 open_brace.
  unfold open_brace in H.
  destruct (name_run r) as [n r'] eqn:E.
  apply name_run_inv in E as (-> & Hn & _).
  destruct n as [|c n]; [done|].
  destruct r' as [|d0 [|d1 post]]; try done.
  { by destruct d0 as [[] [] [] [] [] [] [] []]. }
  pin_char d0 close_brace. pin_char d1 close_brace.
  unfold close_brace in H. inversion H; subst.
  exists (c :: n), post. split; [by split|]. split; [done|].
  rewrite token_cons. simpl. by rewrite <- app_assoc.
Qed.

Lemma token_inj n n' : token n = token n' -> n = n'.
Proof.
  rewrite !token_cons. intros H. inversion H as [H'].
  by apply app_inv_tail in H'.
Qed.

(** ** Where placeholders occur *)

Lemma Occurs_nil i n : ~ Occurs [] i n.
Proof.
  intros (pre & post & H & _ & _). apply (f_equal length) in H.
  rewrite !length_app, token_length in H. simpl in H. lia.
Qed.

Lemma Occurs_0 t n :
  Occurs t 0 n <-> valid_name n /\ exists post, t = token n ++ post.
Proof.
  split.
  - intros (pre & post & -> & Hlen & Hn). destruct pre; [|done].
    split; [done|]. by exists post.
  - intros (Hn & post & ->). by exists [], post.
Qed.

Lemma Occurs_S c t i n : Occurs (c :: t) (S i) n <-> Occurs t i n.
Proof.
  split.
  - intros (pre & post & H & Hlen & Hn). destruct pre as [|c' pre]; [done|].
    simpl in H, Hlen. inversion H; subst. exists pre, post. split_and!; [done|lia|done].
  - intros (pre & post & -> & <- & Hn). by exists (c :: pre), post.
Qed.

Lemma Occurs_0_match t n :
  Occurs t 0 n <-> JSON_NAME_RE_at t = Some (token n).
Proof.
  rewrite Occurs_0. split.
  - intros (Hn & post & ->). by apply JSON_NAME_RE_at_token.
  - intros H. apply JSON_NAME_RE_at_Some in H as (n' & post & Hn' & Heq & ->).
    apply token_inj in Heq as ->. split; [done|]. by exists post.
Qed.

Lemma Occurs_app_l u t i n : Occurs t i n -> Occurs (u ++ t) (length u + i) n.
Proof.
  intros (pre & post & -> & <- & Hn). exists (u ++ pre), post.
  split_and!; [by rewrite <- app_assoc|by rewrite length_app|done].
Qed.

(** No placeholder starts inside a stretch without an opening brace. *)
Lemma Occurs_skip u t i n :
  Forall (fun c => c <> open_brace) u ->
  Occurs (u ++ t) i n ->
  length u <= i /\ Occurs t (i - length u) n.
Proof.
  intros Hu. revert i. induction Hu as [|c u Hc Hu IH]; intros i H.
  - simpl in *. rewrite Nat.sub_0_r. split; [lia|done].
  - destruct i as [|i].
    + apply Occurs_0 in H as (_ & post & H). rewrite token_cons in H.
      simpl in H. by inversion H.
    + simpl in H. apply Occurs_S in H. apply IH in H as [? ?]. simpl. split; [lia|done].
Qed.

(** Behind a placeholder at the head of a text, the next one starts
    after its end: placeholders never overlap. *)
Lemma Occurs_behind_token n0 post i n :
  valid_name n0 ->
  Occurs (token n0 ++ post) i n ->
  (i = 0 /\ n = n0) \/
  (length (token n0) <= i /\ Occurs post (i - length (token n0)) n).
Proof.
  intros Hn0 H. destruct i as [|[|i]].
  - left. split; [done|]. apply Occurs_0_match in H.
    rewrite JSON_NAME_RE_at_token in H by done.
    symmetry. apply token_inj. congruence.
  - exfalso. rewrite token_cons in H. simpl in H. apply Occurs_S in H.
    apply Occurs_0 in H as (_ & post' & H). rewrite token_cons in H.
    destruct Hn0 as [Hne Hn0]. destruct n0 as [|c n0]; [done|].
    simpl in H. inversion H; subst. inversion Hn0; subst. auto.
  - right. rewrite token_cons in H. simpl in H. do 2 apply Occurs_S in H.
    apply Occurs_skip in H.
    + destruct H as [Hle H]. rewrite token_length. rewrite length_app in *.
      simpl in *. split; [lia|].
      by replace (S (S i) - (length n0 + 4)) with (i - (length n0 + 2)) by lia.
    + destruct Hn0 as [_ Hn0]. apply Forall_app. split.
      * eapply Forall_impl; [exact Hn0|]. intros c Hc ->. auto.
      * by repeat constructor.
Qed.

(** ** The scan of the global pattern *)

Lemma match_all_cons_Some c t m :
  JSON_NAME_RE_at (c :: t) = Some m ->
  match_all (c :: t) = m :: match_all (drop (length m - 1) t).
Proof. intros H. simp match_all. rewrite H. by simp match_all. Qed.

Lemma match_all_cons_None c t :
  JSON_NAME_RE_at (c :: t) = None -> match_all (c :: t) = match_all t.
Proof. intros H. simp match_all. rewrite H. by simp match_all. Qed.

Lemma match_all_token n post :
  valid_name n -> match_all (token n ++ post) = token n :: match_all post.
Proof.
  intros Hn. pose proof (JSON_NAME_RE_at_token n post Hn) as H.
  rewrite token_cons in *. cbn [app] in *.
  rewrite (match_all_cons_Some _ _ _ H). f_equal. f_equal.
  cbn [length]. rewrite Nat.sub_succ, Nat.sub_0_r.
  cbn [drop]. rewrite length_app. rewrite drop_app_length'; [done|].
  by rewrite length_app.
Qed.

Lemma shift_entry_sorted k ps :
  StronglySorted before_entry ps ->
  StronglySorted before_entry (shift_entry k <$> ps).
Proof.
  apply StronglySorted_fmap. intros [i n] [j n']. unfold before_entry. simpl. lia.
Qed.

(** The scan finds the placeholders of the text, each once, from left
    to right. *)
Lemma match_all_entries t :
  exists ps : list (nat * str),
    (forall i n, (i, n) ∈ ps <-> Occurs t i n) /\
    StronglySorted before_entry ps /\
    match_all t = (fun p => token p.2) <$> ps.
Proof.
  remember (length t) as k eqn:Hk. revert t Hk.
  induction k as [k IH] using lt_wf_ind. intros t ->.
  destruct t as [|c t].
  { exists []. split_and!; [|constructor|by simp match_all].
    intros i n. split; [by intros ?%elem_of_nil|by intros ?%Occurs_nil]. }
  destruct (JSON_NAME_RE_at (c :: t)) as [m|] eqn:E.
  - destruct (JSON_NAME_RE_at_Some _ _ E) as (n0 & post & Hn0 & -> & Ht).
    destruct (IH (length post)) with (t := post) as (ps & Hin & Hsort & Hall);
      [|done|].
    { rewrite Ht, length_app, token_length. lia. }
    exists ((0, n0) :: (shift_entry (length (token n0)) <$> ps)).
    rewrite Ht. split_and!.
    + intros i n. rewrite elem_of_cons, list_elem_of_fmap. split.
      * intros [[= -> ->]|([j n'] & [= -> ->] & Hj)].
        -- apply Occurs_0. split; [done|]. by exists post.
        -- apply (Occurs_app_l (token n0) post j n'). by apply Hin.
      * intros H. apply Occurs_behind_token in H; [|done].
        destruct H as [[-> ->]|[Hle Hocc]]; [by left|].
        right. exists (i - length (token n0), n).
        split; [|exact (proj2 (Hin _ _) Hocc)].
        unfold shift_entry. cbn [fst snd]. f_equal. lia.
    + constructor; [by apply shift_entry_sorted|].
      apply Forall_fmap, Forall_forall. intros [j n'] _.
      unfold compose, before_entry, shift_entry. cbn [fst snd].
      rewrite token_length. lia.
    + rewrite match_all_token by done. rewrite Hall. simpl. f_equal.
      rewrite <- list_fmap_compose. done.
  - destruct (IH (length t)) with (t := t) as (ps & Hin & Hsort & Hall);
      [simpl; lia|done|].
    exists (shift_entry 1 <$> ps). split_and!.
    + intros i n. rewrite list_elem_of_fmap. split.
      * intros ([j n'] & [= -> ->] & Hj). simpl. apply Occurs_S. by apply Hin.
      * intros H. destruct i as [|i].
        { apply Occurs_0_match in H. congruence. }
        apply Occurs_S in H. exists (i, n). split; [done|]. by apply Hin.
    + by apply shift_entry_sorted.
    + rewrite match_all_cons_None by done. rewrite Hall.
      rewrite <- list_fmap_compose. done.
Qed.

(** ** The validation loop *)

Lemma slice_token n : JS.slice (token n) 2 (-2) = n.
Proof.
  unfold JS.slice, JS.rel_index. rewrite token_length.
  replace (2 <? 0)%Z with false by done. replace (-2 <? 0)%Z with true by done.
  replace (Z.to_nat (Z.min 2 (Z.of_nat (length n + 4)))) with 2 by lia.
  replace (Z.to_nat _) with (length n) by lia.
  rewrite token_cons. cbn [drop]. by rewrite drop_0, take_app_length.
Qed.

Lemma collect_bad_entries (V : gset str) (ps : list (nat * str)) :
  collect_bad V ((fun p => token p.2) <$> ps)
  = (filter (fun p => p.2 ∉ V) ps).*2.
Proof.
  induction ps as [|[i n] ps IH]; [done|].
  cbn [fmap list_fmap collect_bad snd]. rewrite slice_token, filter_cons.
  cbn [snd]. destruct (decide (n ∈ V)) as [Hn|Hn].
  - by rewrite decide_False by auto.
  - rewrite decide_True by done. cbn [fmap list_fmap snd]. by f_equal.
Qed.

Lemma StronglySorted_filter {A} (R : relation A) (P : A -> Prop)
    `{forall x, Decision (P x)} (l : list A) :
  StronglySorted R l -> StronglySorted R (filter P l).
Proof.
  induction 1 as [|x l Hl IH Hx]; [constructor|].
  rewrite filter_cons. case_decide; [|done].
  constructor; [done|]. rewrite Forall_forall in *.
  intros y [_ Hy]%list_elem_of_filter. by apply Hx.
Qed.

(** C1.  For every text and every set of valid names, the unresolved
    list of the validator holds exactly the names of the placeholders
    of the text -- the substrings of the form [{{name}}] with a
    non-empty, brace-free name -- that are not valid names: one entry
    per such substring, in the order of the offsets, the substrings
    not overlapping.  Nothing else contributes; where the text has no
    match at all, there is no such substring. *)
Theorem validator_reports_unresolved_placeholders (t : str) (V : gset str) :
  exists ps : list (nat * str),
    (forall i n, (i, n) ∈ ps <-> Occurs t i n /\ n ∉ V) /\
    StronglySorted before_entry ps /\
    match str_match t with
    | Some resVars => collect_bad V resVars = ps.*2
    | None => forall i n, ~ Occurs t i n
    end.
Proof.
  destruct (match_all_entries t) as (ps & Hin & Hsort & Hall).
  exists (filter (fun p => p.2 ∉ V) ps). split_and!.
  - intros i n. rewrite list_elem_of_filter, Hin. simpl. tauto.
  - by apply StronglySorted_filter.
  - unfold str_match. rewrite Hall. destruct ps as [|p ps].
    + intros i n Hocc%Hin. by apply elem_of_nil in Hocc.
    + cbn [fmap list_fmap]. apply (collect_bad_entries V (p :: ps)).
Qed.

Example validate_scenario :
  str_match (lit "HP: {{hp}}% {{mp}}") = Some [lit "{{hp}}"; lit "{{mp}}"] /\
  collect_bad {[ lit "hp" ]} [lit "{{hp}}"; lit "{{mp}}"] = [lit "mp"].
Proof. split; vm_compute; reflexivity. Qed.

Example single_braces_are_no_placeholder :
  str_match (lit "{name} and {{}} and {{a{b}}") = None.
Proof. vm_compute. reflexivity. Qed.


(** ** Pieces *)

Lemma pieces_cons_None c t :
  JSON_NAME_RE_at (c :: t) = None -> pieces (c :: t) = Lit c :: pieces t.
Proof. intros H. simp pieces. rewrite H. by simp pieces. Qed.

Lemma pieces_token n post :
  valid_name n -> pieces (token n ++ post) = Placeholder n :: pieces post.
Proof.
  intros Hn. pose proof (JSON_NAME_RE_at_token n post Hn) as H.
  rewrite <- (slice_token n) at 2.
  rewrite token_cons in *. cbn [app] in *. simp pieces. rewrite H.
  simp pieces. f_equal. f_equal.
  cbn [length]. rewrite Nat.sub_succ, Nat.sub_0_r.
  cbn [drop]. rewrite length_app. rewrite drop_app_length'; [done|].
  by rewrite length_app.
Qed.

(** Induction on texts along the scan: a text is empty, starts with a
    placeholder, or starts with a character at which the pattern does
    not match. *)
Lemma scan_ind (P : str -> Prop) :
  P [] ->
  (forall n post, valid_name n -> P post -> P (token n ++ post)) ->
  (forall c t, JSON_NAME_RE_at (c :: t) = None -> P t -> P (c :: t)) ->
  forall t, P t.
Proof.
  intros Hnil Htok Hlit t.
  remember (length t) as k eqn:Hk. revert t Hk.
  induction k as [k IH] using lt_wf_ind. intros t ->.
  destruct t as [|c t]; [done|].
  destruct (JSON_NAME_RE_at (c :: t)) as [m|] eqn:E.
  - destruct (JSON_NAME_RE_at_Some _ _ E) as (n & post & Hn & -> & Ht).
    rewrite Ht. apply Htok; [done|]. apply (IH (length post)); [|done].
    rewrite Ht, length_app, token_length. lia.
  - apply Hlit; [done|]. apply (IH (length t)); [simpl; lia|done].
Qed.

Lemma pieces_text_pieces t : pieces_text (pieces t) = t.
Proof.
  induction t as [|n post Hn IH|c t Hc IH] using scan_ind.
  - by simp pieces.
  - rewrite pieces_token by done. unfold pieces_text in *.
    cbn [fmap list_fmap concat piece_text]. by rewrite IH.
  - rewrite pieces_cons_None by done. unfold pieces_text in *.
    cbn [fmap list_fmap concat piece_text]. by rewrite IH.
Qed.

Lemma match_all_pieces t :
  match_all t = token <$> omap piece_name (pieces t).
Proof.
  induction t as [|n post Hn IH|c t Hc IH] using scan_ind.
  - by simp match_all pieces.
  - rewrite match_all_token, pieces_token by done. simpl. by rewrite IH.
  - rewrite match_all_cons_None, pieces_cons_None by done. simpl. by rewrite IH.
Qed.

(** ** Splitting and joining *)

Lemma split_from_cons sep cur c t :
  JS.split_from sep cur (c :: t)
  = if JS.startsWith (c :: t) sep
    then cur :: JS.split_from sep [] (drop (length sep - 1) t)
    else JS.split_from sep (cur ++ [c]) t.
Proof.
  simp split_from. destruct (JS.startsWith (c :: t) sep); by simp split_from.
Qed.

Lemma split_from_not_nil sep cur t : JS.split_from sep cur t <> [].
Proof.
  remember (length t) as k eqn:Hk. revert cur t Hk.
  induction k as [k IH] using lt_wf_ind. intros cur t ->.
  destruct t as [|c t]; [by simp split_from|].
  rewrite split_from_cons. destruct (JS.startsWith (c :: t) sep); [done|].
  apply (IH (length t)); [simpl; lia|done].
Qed.

Lemma join_cons x l new :
  l <> [] -> JS.join (x :: l) new = x ++ new ++ JS.join l new.
Proof. by destruct l. Qed.

(** The piece being accumulated comes out in front. *)
Lemma join_split_from sep new cur t :
  JS.join (JS.split_from sep cur t) new
  = cur ++ JS.join (JS.split_from sep [] t) new.
Proof.
  remember (length t) as k eqn:Hk. revert cur t Hk.
  induction k as [k IH] using lt_wf_ind. intros cur t ->.
  destruct t as [|c t].
  { simp split_from. simpl. by rewrite app_nil_r. }
  rewrite !split_from_cons. destruct (JS.startsWith (c :: t) sep).
  - rewrite !join_cons by apply split_from_not_nil. done.
  - rewrite (IH (length t)) with (cur := cur ++ [c]); [|simpl; lia|done].
    rewrite (IH (length t)) with (cur := [] ++ [c]); [|simpl; lia|done].
    by rewrite <- app_assoc.
Qed.

Lemma split_from_sep sep cur rest :
  sep <> [] ->
  JS.split_from sep cur (sep ++ rest) = cur :: JS.split_from sep [] rest.
Proof.
  intros Hsep. destruct sep as [|c sep]; [done|]. cbn [app].
  rewrite split_from_cons.
  replace (JS.startsWith (c :: sep ++ rest) (c :: sep)) with true.
  - cbn [length]. by rewrite Nat.sub_succ, Nat.sub_0_r, drop_app_length.
  - symmetry. apply bool_decide_eq_true. by exists rest.
Qed.

Lemma startsWith_true s p : JS.startsWith s p = true <-> exists k, s = p ++ k.
Proof. unfold JS.startsWith. by rewrite bool_decide_eq_true. Qed.

Lemma startsWith_false s p : JS.startsWith s p = false <-> ~ exists k, s = p ++ k.
Proof. unfold JS.startsWith. by rewrite bool_decide_eq_false. Qed.

Lemma split_token text from :
  JS.split text (token from) = JS.split_from (token from) [] text.
Proof. reflexivity. Qed.

(** ** The rewrite of a rename, step by step *)

Lemma rename_nil from to : rename_in [] from to = [].
Proof. unfold rename_in. rewrite split_token. by simp split_from. Qed.

Lemma rename_token from to rest :
  rename_in (token from ++ rest) from to = token to ++ rename_in rest from to.
Proof.
  unfold rename_in. rewrite !split_token.
  rewrite split_from_sep by done.
  by rewrite join_cons by apply split_from_not_nil.
Qed.

Lemma rename_cons from to c t :
  JS.startsWith (c :: t) (token from) = false ->
  rename_in (c :: t) from to = c :: rename_in t from to.
Proof.
  intros Hs. unfold rename_in. rewrite !split_token.
  rewrite split_from_cons, Hs. by rewrite join_split_from.
Qed.

Lemma startsWith_token t n :
  valid_name n -> JS.startsWith t (token n) = true <-> Occurs t 0 n.
Proof. intros Hn. rewrite startsWith_true, Occurs_0. tauto. Qed.

Section Rename.

Variables from to : str.
Hypothesis from_valid : valid_name from.
Hypothesis to_valid : valid_name to.

(** A stretch in which no placeholder for [from] starts is copied. *)
Lemma rename_copy u t :
  (forall j, j < length u -> ~ Occurs (u ++ t) j from) ->
  rename_in (u ++ t) from to = u ++ rename_in t from to.
Proof.
  induction u as [|c u IH]; intros Hfree; [done|]. cbn [app].
  rewrite rename_cons.
  - f_equal. apply IH. intros j Hj Hocc. apply (Hfree (S j)); [simpl; lia|].
    by apply Occurs_S.
  - apply not_true_is_false. intros Hs%startsWith_token; [|done].
    apply (Hfree 0); [simpl; lia|done].
Qed.

Lemma rename_token_other n post :
  valid_name n -> n <> from ->
  rename_in (token n ++ post) from to = token n ++ rename_in post from to.
Proof.
  intros Hn Hne. apply rename_copy. intros j Hj Hocc.
  apply Occurs_behind_token in Hocc; [|done].
  destruct Hocc as [[_ ?]|[? _]]; [done|lia].
Qed.

Lemma rename_cons_inv t c x :
  rename_in t from to = c :: x ->
  (exists rest, t = token from ++ rest /\ c :: x = token to ++ rename_in rest from to) \/
  (exists t', t = c :: t' /\ x = rename_in t' from to /\
              JS.startsWith t (token from) = false).
Proof.
  intros H. destruct t as [|c' t]; [by rewrite rename_nil in H|].
  destruct (JS.startsWith (c' :: t) (token from)) eqn:Hs.
  - left. apply startsWith_true in Hs as [rest Hs]. exists rest.
    split; [done|]. by rewrite <- H, Hs, rename_token.
  - right. rewrite rename_cons in H by done. inversion H; subst. by exists t.
Qed.

(** What the rewrite shows before its first opening brace, the text
    showed already. *)
Lemma rename_nonopen_prefix u t y :
  Forall (fun c => c <> open_brace) u ->
  rename_in t from to = u ++ y ->
  exists t2, t = u ++ t2 /\ rename_in t2 from to = y.
Proof.
  intros Hu. revert t. induction Hu as [|c u Hc Hu IH]; intros t H.
  - by exists t.
  - cbn [app] in H. apply rename_cons_inv in H as [(rest & _ & H)|(t' & -> & H & _)].
    + rewrite token_cons in H. by inversion H.
    + symmetry in H. apply IH in H as (t2 & -> & H). by exists t2.
Qed.

(** Where the pattern does not match the text, it does not match the
    rewritten text. *)
Lemma rename_keeps_mismatch c t :
  JSON_NAME_RE_at (c :: t) = None ->
  JSON_NAME_RE_at (c :: rename_in t from to) = None.
Proof.
  intros Hnone. destruct (JSON_NAME_RE_at (c :: rename_in t from to)) as [m|] eqn:E;
    [exfalso|done].
  apply JSON_NAME_RE_at_Some in E as (n & post & Hn & _ & E).
  rewrite token_cons in E. cbn [app] in E. inversion E as [[Hc E']]. subst c.
  apply rename_cons_inv in E' as [(rest & _ & H)|(t' & -> & H & _)].
  - rewrite token_cons in H. cbn [app] in H. inversion H as [H'].
    destruct Hn as [Hne Hn]. destruct n as [|d n]; [done|].
    inversion Hn; subst. inversion H'; subst. auto.
  - symmetry in H. apply rename_nonopen_prefix in H as (t2 & -> & _).
    + assert (JSON_NAME_RE_at (token n ++ t2) = Some (token n)) as Hsome
        by by apply JSON_NAME_RE_at_token.
      rewrite token_cons in Hsome. cbn [app] in Hsome. congruence.
    + destruct Hn as [_ Hn]. apply Forall_app. split.
      * eapply Forall_impl; [exact Hn|]. intros d Hd ->. auto.
      * by repeat constructor.
Qed.

(** The rewrite relabels the placeholders for [from] and leaves every
    other piece of the text as it is. *)
Lemma pieces_rename t :
  pieces (rename_in t from to) = relabel from to <$> pieces t.
Proof.
  induction t as [|n post Hn IH|c t Hc IH] using scan_ind.
  - rewrite rename_nil. by simp pieces.
  - rewrite (pieces_token n) by done. cbn [fmap list_fmap relabel].
    destruct (decide (n = from)) as [->|Hne].
    + rewrite rename_token, pieces_token by done. by rewrite IH.
    + rewrite rename_token_other, pieces_token by done. by rewrite IH.
  - rewrite rename_cons.
    + rewrite !pieces_cons_None by auto using rename_keeps_mismatch.
      cbn [fmap list_fmap relabel]. by rewrite IH.
    + apply not_true_is_false. intros Hs%startsWith_token%Occurs_0_match; [|done].
      congruence.
Qed.

End Rename.

(** ** Signals under the validation effect *)

(** The effect writes the two diagnostics and nothing else. *)
Lemma validation_effect_frame s :
  let s' := validation_effect s in
  show s' = show s /\ schema s' = schema s /\ showImport s' = showImport s /\
  response s' = response s /\ hist s' = hist s /\
  candidate s' = candidate s /\ auto s' = auto s /\ hotkey s' = hotkey s.
Proof.
  unfold validation_effect.
  destruct (str_match (response s)), (str_match (hist s)); by repeat split.
Qed.

Lemma validation_effect_response s : response (validation_effect s) = response s.
Proof. apply validation_effect_frame. Qed.

Lemma validation_effect_hist s : hist (validation_effect s) = hist s.
Proof. apply validation_effect_frame. Qed.

Lemma validation_effect_candidate s : candidate (validation_effect s) = candidate s.
Proof. apply validation_effect_frame. Qed.

Lemma validation_effect_auto s : auto (validation_effect s) = auto s.
Proof. apply validation_effect_frame. Qed.

Lemma validation_effect_hotkey s : hotkey (validation_effect s) = hotkey s.
Proof. apply validation_effect_frame. Qed.

Lemma setResponse_response v s : response (setResponse v s) = v.
Proof.
  unfold setResponse. case_decide; [done|]. by rewrite validation_effect_response.
Qed.

Lemma setResponse_hist v s : hist (setResponse v s) = hist s.
Proof.
  unfold setResponse. case_decide; [done|]. by rewrite validation_effect_hist.
Qed.

Lemma setHistory_hist v s : hist (setHistory v s) = v.
Proof.
  unfold setHistory. case_decide; [done|]. by rewrite validation_effect_hist.
Qed.

Lemma setHistory_response v s : response (setHistory v s) = response s.
Proof.
  unfold setHistory. case_decide; [done|]. by rewrite validation_effect_response.
Qed.

Lemma setter_of_text b v s : text_of b (setter_of b v s) = v.
Proof. destruct b; [apply setResponse_response|apply setHistory_hist]. Qed.

Lemma setResponse_auto v s : auto (setResponse v s) = auto s.
Proof.
  unfold setResponse. case_decide; [done|]. by rewrite validation_effect_auto.
Qed.

Lemma setHistory_auto v s : auto (setHistory v s) = auto s.
Proof.
  unfold setHistory. case_decide; [done|]. by rewrite validation_effect_auto.
Qed.

Lemma setCandidate_auto v s : auto (setCandidate v s) = auto s.
Proof. unfold setCandidate. by rewrite validation_effect_auto. Qed.

Lemma setCandidate_candidate v s : candidate (setCandidate v s) = v.
Proof. unfold setCandidate. by rewrite validation_effect_candidate. Qed.

Lemma setCandidate_response v s : response (setCandidate v s) = response s.
Proof. unfold setCandidate. by rewrite validation_effect_response. Qed.

Lemma setCandidate_hist v s : hist (setCandidate v s) = hist s.
Proof. unfold setCandidate. by rewrite validation_effect_hist. Qed.

Lemma setResponse_candidate v s : candidate (setResponse v s) = candidate s.
Proof.
  unfold setResponse. case_decide; [done|]. by rewrite validation_effect_candidate.
Qed.

Lemma setHistory_candidate v s : candidate (setHistory v s) = candidate s.
Proof.
  unfold setHistory. case_decide; [done|]. by rewrite validation_effect_candidate.
Qed.

(** ** Rename propagation *)

(** C2, for placeholder names. For names that are placeholder names --
    not empty and free of braces -- a rename from [from] to [to]
    rewrites both buffers independently so that each placeholder for
    [from] becomes one for [to], while every other piece of the text,
    the placeholders of longer names that start with [from] among
    them, stays as it is: no placeholder appears or disappears. The
    textareas show the rewritten texts. *)
Theorem rename_relabels_placeholders (from to : str) (w : World) :
  valid_name from -> valid_name to ->
  let w' := onFieldNameChange from to w in
  pieces (response (sig w')) = relabel from to <$> pieces (response (sig w)) /\
  pieces (hist (sig w')) = relabel from to <$> pieces (hist (sig w)) /\
  value (respRef w') = response (sig w') /\
  value (histRef w') = hist (sig w').
Proof.
  intros Hfrom Hto. cbn zeta.
  unfold onFieldNameChange, with_sig, with_value, with_ref.
  cbn [sig respRef histRef value ref_of].
  rewrite setHistory_response, setResponse_response, setHistory_hist.
  by rewrite !pieces_rename.
Qed.

Lemma rename_relabels_placeholders_witness :
  valid_name (lit "hp") /\ valid_name (lit "health") /\
  let w' := onFieldNameChange (lit "hp") (lit "health") (init hp_props) in
  pieces (response (sig w'))
  = relabel (lit "hp") (lit "health") <$> pieces (response (sig (init hp_props))) /\
  pieces (hist (sig w'))
  = relabel (lit "hp") (lit "health") <$> pieces (hist (sig (init hp_props))) /\
  value (respRef w') = response (sig w') /\
  value (histRef w') = hist (sig w').
Proof.
  assert (valid_name (lit "hp")) as H1
    by (apply (bool_decide_unpack _); vm_compute; exact I).
  assert (valid_name (lit "health")) as H2
    by (apply (bool_decide_unpack _); vm_compute; exact I).
  split; [exact H1|]. split; [exact H2|].
  exact (rename_relabels_placeholders _ _ (init hp_props) H1 H2).
Defined.

Example rename_scenario :
  let w' := onFieldNameChange (lit "hp") (lit "health") (init hp_props) in
  response (sig w') = lit "HP: {{health}}% {{mp}}" /\
  hist (sig w') = lit "{{health}} of {{hpx}}" /\
  resErr (sig w') = lit "health, mp".
Proof. vm_compute. done. Qed.

(** C2 does not hold for every pair of names:
    renaming a field to the empty name turns its placeholders into
    [{{}}], which is no placeholder. *)
Lemma rename_to_empty_name_drops_placeholder :
  ~ (forall (from to : str) (w : World),
       length (match_all (response (sig (onFieldNameChange from to w))))
       = length (match_all (response (sig w)))).
Proof.
  intros H.
  specialize (H (lit "hp") (lit "") (init hp_props)).
  vm_compute in H. discriminate.
Qed.

(** ** Slices *)

Lemma slice_0_nonneg s k :
  (0 <= k)%Z -> JS.slice s 0 k = take (Z.to_nat k) s.
Proof.
  intros Hk. unfold JS.slice, JS.rel_index.
  replace (0 <? 0)%Z with false by done.
  replace (k <? 0)%Z with false by lia.
  replace (Z.min 0 (Z.of_nat (length s))) with 0%Z by lia.
  rewrite drop_0. rewrite Z.sub_0_r.
  destruct (decide (k <= Z.of_nat (length s))%Z).
  - by replace (Z.min k (Z.of_nat (length s))) with k by lia.
  - replace (Z.min k (Z.of_nat (length s))) with (Z.of_nat (length s)) by lia.
    rewrite Nat2Z.id. rewrite !take_ge; [done|lia..].
Qed.

Lemma slice_0_minus_1 s : JS.slice s 0 (-1) = take (length s - 1) s.
Proof.
  unfold JS.slice, JS.rel_index.
  replace (0 <? 0)%Z with false by done.
  replace (-1 <? 0)%Z with true by done.
  replace (Z.min 0 (Z.of_nat (length s))) with 0%Z by lia.
  rewrite drop_0. f_equal. lia.
Qed.

Lemma slice_from_nonneg s k :
  (0 <= k)%Z -> JS.slice_from s k = drop (Z.to_nat k) s.
Proof.
  intros Hk. unfold JS.slice_from, JS.slice, JS.rel_index.
  destruct (Z.ltb_spec k 0); [lia|].
  destruct (Z.ltb_spec (Z.of_nat (length s)) 0); [lia|].
  rewrite Z.min_id.
  destruct (decide (k <= Z.of_nat (length s))%Z).
  - replace (Z.min k (Z.of_nat (length s))) with k by lia.
    apply take_ge. rewrite length_drop. lia.
  - replace (Z.min k (Z.of_nat (length s))) with (Z.of_nat (length s)) by lia.
    rewrite Z.sub_diag, Nat2Z.id. simpl. rewrite take_0.
    symmetry. apply drop_ge. lia.
Qed.

(** ** The two boundary tests *)

Lemma endsWith_app s p : JS.endsWith (s ++ p) p = true.
Proof. apply bool_decide_eq_true. by exists s. Qed.

Lemma startsWith_app p s : JS.startsWith (p ++ s) p = true.
Proof. apply bool_decide_eq_true. by exists s. Qed.

Lemma endsWith_snoc_inv s c d :
  JS.endsWith (s ++ [c]) [d; c] = JS.endsWith s [d].
Proof.
  apply bool_decide_ext. split.
  - intros [k Hk]. exists k.
    change (k ++ [d; c]) with (k ++ [d] ++ [c]) in Hk.
    rewrite app_assoc in Hk. by apply app_inj_tail in Hk as [Hk _].
  - intros [k ->]. exists k. by rewrite <- app_assoc.
Qed.

Lemma endsWith_take s c :
  JS.endsWith s [c] = true -> s = take (length s - 1) s ++ [c].
Proof.
  intros [k ->]%bool_decide_eq_true. rewrite length_app. simpl.
  replace (length k + 1 - 1) with (length k) by lia.
  by rewrite take_app_length.
Qed.

Lemma normalize_left_open s : normalize_left (s ++ lit "{{") = s ++ lit "{{".
Proof. unfold normalize_left. by rewrite endsWith_app. Qed.

Lemma normalize_left_single s :
  JS.endsWith s (lit "{") = false ->
  normalize_left (s ++ lit "{") = s ++ lit "{{".
Proof.
  intros Hs. unfold normalize_left.
  change (lit "{{") with [open_brace; open_brace].
  change (lit "{") with [open_brace] in *.
  rewrite endsWith_snoc_inv, Hs, endsWith_app. by rewrite <- app_assoc.
Qed.

Lemma normalize_right_closed s : normalize_right (lit "}}" ++ s) = lit "}}" ++ s.
Proof.
  unfold normalize_right.
  change (lit "}}" ++ s) with (lit "}" ++ (lit "}" ++ s)).
  by rewrite startsWith_app.
Qed.

(** Insertion at a caret that sits between [{{] and [}}].  [kept] is
    what stays in front of the token. *)
Lemma insertion_at_braces (hk : bool) (pre post label : str) :
  let kept :=
    if hk then pre
    else if JS.endsWith pre (lit "{") then take (length pre - 1) pre
    else pre in
  insertion hk (pre ++ lit "{{" ++ lit "}}" ++ post)
    (Z.of_nat (length pre + 2)) label
  = (kept ++ token label ++ post,
     Z.of_nat (length (kept ++ lit "{{" ++ label))).
Proof.
  cbn zeta. unfold insertion, split_before, split_after.
  rewrite slice_from_nonneg by lia. rewrite slice_0_nonneg by (destruct hk; lia).
  rewrite Nat2Z.id.
  replace (drop (length pre + 2) (pre ++ lit "{{" ++ lit "}}" ++ post))
    with (lit "}}" ++ post).
  2:{ rewrite (app_assoc pre). rewrite drop_app_length'; [done|].
      rewrite length_app. simpl. lia. }
  rewrite normalize_right_closed.
  destruct hk.
  - replace (Z.to_nat (Z.of_nat (length pre + 2) - 0)) with (length pre + 2) by lia.
    replace (take (length pre + 2) (pre ++ lit "{{" ++ lit "}}" ++ post))
      with (pre ++ lit "{{").
    2:{ rewrite (app_assoc pre). rewrite take_app_length'; [done|].
        rewrite length_app. simpl. lia. }
    rewrite normalize_left_open. unfold token.
    rewrite <- !app_assoc. f_equal. rewrite !length_app. simpl. lia.
  - replace (Z.to_nat (Z.of_nat (length pre + 2) - 1)) with (length pre + 1) by lia.
    replace (take (length pre + 1) (pre ++ lit "{{" ++ lit "}}" ++ post))
      with (pre ++ lit "{").
    2:{ change (lit "{{" ++ lit "}}" ++ post) with (lit "{" ++ (lit "{" ++ lit "}}" ++ post)).
        rewrite (app_assoc pre). rewrite take_app_length'; [done|].
        rewrite length_app. simpl. lia. }
    destruct (JS.endsWith pre (lit "{")) eqn:Hpre.
    + apply endsWith_take in Hpre. set (kept := take (length pre - 1) pre) in *.
      rewrite Hpre at 1 2. rewrite <- (app_assoc kept).
      change ([open_brace] ++ lit "{") with (lit "{{").
      rewrite normalize_left_open. unfold token.
      rewrite <- !app_assoc. f_equal. rewrite !length_app. simpl. lia.
    + rewrite normalize_left_single by done. unfold token.
      rewrite <- !app_assoc. f_equal. rewrite !length_app. simpl. lia.
Qed.

(** ** The suggestion handler *)

Lemma auto_ref_buffer b s : auto s = buffer_name b -> auto_ref s = Some b.
Proof. unfold auto_ref. intros ->. by destruct b. Qed.

(** What accepting a suggestion does to the buffer whose list shows. *)
Lemma onAutoComplete_buffer (b : Buffer) (label : str) (w : World) :
  suggesting b w ->
  let w' := onAutoComplete (setter_of b) label w in
  let result :=
    insertion (hotkey (sig w)) (value (ref_of b w))
      (selectionStart (ref_of b w)) label in
  value (ref_of b w') = result.1 /\
  selectionStart (ref_of b w') = result.2 /\
  text_of b (sig w') = result.1 /\
  auto (sig w') = lit "" /\
  hotkey (sig w') = false /\
  ref_of (other b) w' = ref_of (other b) w /\
  committed w' = committed w.
Proof.
  intros Hb. cbn zeta. unfold onAutoComplete.
  rewrite (auto_ref_buffer b) by done.
  destruct (insertion _ _ _ _) as [next pos].
  destruct b; cbn;
    rewrite ?setResponse_response, ?setHistory_hist; by repeat split.
Qed.

(** C3.  When the caret of the buffer whose suggestions show is
    directly preceded by [{{] and directly followed by [}}], accepting
    the name [label] leaves the token [{{label}}] there, directly
    followed by what followed the closing braces, and puts the caret
    right behind the name.  No brace is added: in front of the token
    stays the text that preceded the opening braces, on the brace-typed
    path without its last character when that is an opening brace too. *)
Theorem insertion_between_braces_yields_token
    (b : Buffer) (pre post label : str) (w : World) :
  suggesting b w ->
  value (ref_of b w) = pre ++ lit "{{" ++ lit "}}" ++ post ->
  selectionStart (ref_of b w) = Z.of_nat (length pre + 2) ->
  let w' := onAutoComplete (setter_of b) label w in
  let kept :=
    if hotkey (sig w) then pre
    else if JS.endsWith pre (lit "{") then take (length pre - 1) pre
    else pre in
  value (ref_of b w') = kept ++ token label ++ post /\
  selectionStart (ref_of b w') = Z.of_nat (length (kept ++ lit "{{" ++ label)) /\
  text_of b (sig w') = value (ref_of b w').
Proof.
  intros Hb Hvalue Hcaret. cbn zeta.
  destruct (onAutoComplete_buffer b label w Hb) as (Hv & Hs & Ht & _).
  rewrite Hv, Hs, Ht, Hvalue, Hcaret, insertion_at_braces. done.
Qed.

Lemma insertion_between_braces_yields_token_witness :
  suggesting Response braces_world /\
  value (ref_of Response braces_world) = [] ++ lit "{{" ++ lit "}}" ++ [] /\
  selectionStart (ref_of Response braces_world) = Z.of_nat (length (@nil ascii) + 2) /\
  let w' := onAutoComplete (setter_of Response) (lit "hp") braces_world in
  value (ref_of Response w') = lit "{{hp}}" /\
  selectionStart (ref_of Response w') = 4%Z /\
  text_of Response (sig w') = lit "{{hp}}".
Proof.
  assert (suggesting Response braces_world) as H1 by reflexivity.
  assert (value (ref_of Response braces_world) = [] ++ lit "{{" ++ lit "}}" ++ [])
    as H2 by reflexivity.
  assert (selectionStart (ref_of Response braces_world)
          = Z.of_nat (length (@nil ascii) + 2)) as H3 by reflexivity.
  split; [exact H1|]. split; [exact H2|]. split; [exact H3|].
  destruct (insertion_between_braces_yields_token
              Response [] [] (lit "hp") braces_world H1 H2 H3) as (Hv & Hs & Ht).
  cbn zeta. rewrite Ht, Hv, Hs. by vm_compute.
Defined.

(** C6, with the caret where the code puts it. On the hotkey path,
    accepting [foo] in an empty buffer makes the text [{{foo}}] and
    puts the caret at offset 5, the length of [{{foo], right behind
    the name. *)
Theorem insertion_from_scratch (b : Buffer) (w : World) :
  suggesting b w ->
  hotkey (sig w) = true ->
  value (ref_of b w) = [] ->
  selectionStart (ref_of b w) = 0%Z ->
  let w' := onAutoComplete (setter_of b) (lit "foo") w in
  value (ref_of b w') = lit "{{foo}}" /\
  selectionStart (ref_of b w') = 5%Z /\
  selectionStart (ref_of b w') = Z.of_nat (length (lit "{{foo")) /\
  text_of b (sig w') = lit "{{foo}}".
Proof.
  intros Hb Hhk Hvalue Hcaret. cbn zeta.
  destruct (onAutoComplete_buffer b (lit "foo") w Hb) as (Hv & Hs & Ht & _).
  rewrite Hv, Hs, Ht, Hhk, Hvalue, Hcaret. by vm_compute.
Qed.

Lemma insertion_from_scratch_witness :
  suggesting Response hotkey_world /\
  hotkey (sig hotkey_world) = true /\
  value (ref_of Response hotkey_world) = [] /\
  selectionStart (ref_of Response hotkey_world) = 0%Z /\
  let w' := onAutoComplete (setter_of Response) (lit "foo") hotkey_world in
  value (ref_of Response w') = lit "{{foo}}" /\
  selectionStart (ref_of Response w') = 5%Z /\
  selectionStart (ref_of Response w') = Z.of_nat (length (lit "{{foo")) /\
  text_of Response (sig w') = lit "{{foo}}".
Proof.
  split; [reflexivity|]. split; [reflexivity|]. split; [reflexivity|].
  split; [reflexivity|].
  apply (insertion_from_scratch Response hotkey_world); reflexivity.
Defined.

(** C6 does not hold with the caret at offset 6: the caret ends at
    offset 5. *)
Lemma insertion_from_scratch_caret_not_6 :
  ~ (forall (b : Buffer) (w : World),
       suggesting b w ->
       hotkey (sig w) = true ->
       value (ref_of b w) = [] ->
       selectionStart (ref_of b w) = 0%Z ->
       let w' := onAutoComplete (setter_of b) (lit "foo") w in
       value (ref_of b w') = lit "{{foo}}" /\
       selectionStart (ref_of b w') = 6%Z).
Proof.
  intros H.
  destruct (H Response hotkey_world) as [_ Hcaret]; try reflexivity.
  vm_compute in Hcaret. discriminate.
Qed.

(** C10.  On the brace-typed path [before] is cut at [caret - 1].  With
    the caret at offset 0 that is index -1, which [slice] counts from
    the end: [before] is the whole text without its last character, not
    the empty text, and not empty as soon as the text has two
    characters.  With a caret from 1 to the length of the text,
    [before] is the text in front of the character before the caret.
    On the hotkey path a caret at 0 gives the empty [before]. *)
Theorem split_before_at_caret_zero (prev : str) :
  split_before false prev 0 = take (length prev - 1) prev /\
  (2 <= length prev -> split_before false prev 0 <> []) /\
  (forall caret : Z,
     (1 <= caret <= Z.of_nat (length prev))%Z ->
     split_before false prev caret = take (Z.to_nat caret - 1) prev) /\
  split_before true prev 0 = [].
Proof.
  unfold split_before. split_and!.
  - apply slice_0_minus_1.
  - intros Hlen. change (0 - 1)%Z with (-1)%Z. rewrite slice_0_minus_1.
    destruct prev as [|c [|d prev]]; simpl in *; [lia..|done].
  - intros caret Hcaret. rewrite slice_0_nonneg by lia. f_equal. lia.
  - rewrite slice_0_nonneg by lia. done.
Qed.

Lemma split_before_at_caret_zero_witness :
  split_before false (lit "ab") 0 = lit "a" /\
  split_before false (lit "ab") 0 <> [] /\
  split_before false (lit "ab") 1 = [] /\
  split_before true (lit "ab") 0 = [].
Proof.
  destruct (split_before_at_caret_zero (lit "ab")) as (H0 & Hne & Hpos & Hhot).
  split; [exact H0|]. split; [apply Hne; simpl; lia|].
  split; [apply (Hpos 1%Z); simpl; lia|exact Hhot].
Defined.

(** The user types an opening brace into the empty response buffer and
    accepts [score]. *)
Example insertion_after_typed_brace :
  let typed :=
    step (fun _ _ => []) empty_props (InputText Response (lit "{") 1)
      (step (fun _ _ => []) empty_props (KeyDown Response open_brace_key)
         (init empty_props)) in
  let w := step (fun _ _ => []) empty_props (AutoSelect Response (lit "score")) typed in
  value (respRef w) = lit "{{score}}" /\
  selectionStart (respRef w) = 7%Z /\
  response (sig w) = lit "{{score}}" /\
  auto (sig w) = lit "".
Proof. vm_compute. done. Qed.

Example insertion_at_caret_zero :
  insertion false (lit "ab") 0 (lit "x") = (lit "a{{x}}ab", 4%Z).
Proof. vm_compute. reflexivity. Qed.

(** ** The suggestion state *)

Lemma close_auto p save w : auto (sig (close p save w)) = auto (sig w).
Proof.
  unfold close. by destruct save, (truthy (characterId p)), (truthy (presetId p)).
Qed.

Lemma importSchema_auto p imported w :
  auto (sig (importSchema p imported w)) = auto (sig w).
Proof.
  unfold importSchema. destruct imported as [rs|]; [|done].
  rewrite close_auto. cbn [with_sig sig].
  by rewrite setResponse_auto, setHistory_auto, setCandidate_auto.
Qed.

Lemma onFieldNameChange_auto from to w :
  auto (sig (onFieldNameChange from to w)) = auto (sig w).
Proof.
  unfold onFieldNameChange. cbn [with_sig sig].
  by rewrite setHistory_auto, setResponse_auto.
Qed.

Lemma onAutoComplete_auto setter label w :
  auto (sig (onAutoComplete setter label w)) = lit "".
Proof. reflexivity. Qed.

Lemma onInherit_auto next s : auto (onInherit next s) = auto s.
Proof.
  unfold onInherit. destruct next as [rs|]; [|done].
  case_decide; [done|]. by rewrite validation_effect_auto.
Qed.

Lemma onKeyDown_auto b ev s :
  auto (onKeyDown b ev s) = auto s \/ auto (onKeyDown b ev s) = buffer_name b.
Proof.
  unfold onKeyDown.
  destruct (ctrlKey ev && bool_decide (code ev = lit "Space")); [by right|].
  case_decide; [by right|by left].
Qed.

Lemma onKeyDown_opens b ev s :
  opens_suggestions ev -> auto (onKeyDown b ev s) = buffer_name b.
Proof.
  unfold onKeyDown. intros [Hkey|[Hctrl Hcode]].
  - rewrite decide_True by done. by destruct (_ && _).
  - rewrite Hctrl, bool_decide_eq_true_2 by done. done.
Qed.

Lemma buffer_name_inj b1 b2 : buffer_name b1 = buffer_name b2 -> b1 = b2.
Proof. by destruct b1, b2. Qed.

Section Session.

Variable valid_message : validator -> json -> str.
Variable p : Props.

Lemma onUpdate_auto file w :
  auto (sig (onUpdate valid_message (importSchema p) file w)) = auto (sig w).
Proof.
  unfold onUpdate. destruct file; [done| |];
    (destruct (parse_and_check _ _); [done|apply importSchema_auto]).
Qed.

Lemma step_trigger_ok e w :
  trigger_ok (sig w) -> trigger_ok (sig (step valid_message p e w)).
Proof.
  unfold trigger_ok. intros Hw. destruct e; cbn [step].
  - done.
  - done.
  - done.
  - by rewrite close_auto.
  - by rewrite close_auto.
  - cbn [with_sig sig]. destruct (onKeyDown_auto b ev (sig w)) as [->| ->]; eauto.
  - cbn [with_sig sig]. destruct b; cbn [with_ref sig setter_of];
      by rewrite ?setResponse_auto, ?setHistory_auto.
  - by destruct b.
  - case_decide; [by left|done].
  - case_decide; [by left|done].
  - cbn [with_sig sig]. by rewrite setCandidate_auto.
  - by rewrite onFieldNameChange_auto.
  - by rewrite importSchema_auto.
  - by rewrite onUpdate_auto.
  - cbn [with_sig sig]. by rewrite onInherit_auto.
Qed.

Lemma reachable_trigger_ok w :
  reachable valid_message p w -> trigger_ok (sig w).
Proof.
  induction 1 as [|e w Hw IH]; [|by apply step_trigger_ok].
  left. unfold init. cbn [sig]. by rewrite validation_effect_auto.
Qed.

End Session.

(** C9.  In every reachable state the trigger is idle or suggests in
    exactly one of the two buffers, never in both; and a key that opens
    the suggestions in one buffer -- the opening brace, or the insert
    hotkey -- makes that buffer the suggesting one and leaves the other
    buffer idle. *)
Theorem one_buffer_suggests
    (valid_message : validator -> json -> str) (p : Props) (w : World) :
  reachable valid_message p w ->
  (auto (sig w) = lit "" \/ suggesting Response w \/ suggesting History w) /\
  ~ (suggesting Response w /\ suggesting History w) /\
  forall (b : Buffer) (ev : KeyboardEvent),
    opens_suggestions ev ->
    let w' := step valid_message p (KeyDown b ev) w in
    reachable valid_message p w' /\
    suggesting b w' /\ ~ suggesting (other b) w'.
Proof.
  intros Hw. split_and!.
  - destruct (reachable_trigger_ok _ _ _ Hw) as [?|[[] ?]]; auto.
  - unfold suggesting. intros [H1 H2]. rewrite H1 in H2. done.
  - intros b ev Hev. cbn zeta. split; [by constructor|].
    unfold suggesting. cbn [step with_sig sig].
    rewrite onKeyDown_opens by done. split; [done|].
    intros H%buffer_name_inj. by destruct b.
Qed.

Lemma one_buffer_suggests_witness :
  reachable (fun _ _ => []) empty_props hotkey_world /\
  suggesting Response hotkey_world /\
  ~ suggesting History hotkey_world /\
  suggesting History
    (step (fun _ _ => []) empty_props (KeyDown History open_brace_key) hotkey_world) /\
  ~ suggesting Response
    (step (fun _ _ => []) empty_props (KeyDown History open_brace_key) hotkey_world).
Proof.
  assert (reachable (fun _ _ => []) empty_props hotkey_world) as Hw.
  { apply (reachable_step _ _ (KeyDown Response ctrl_space)). constructor. }
  destruct (one_buffer_suggests _ _ _ Hw) as (_ & Hboth & Hkey).
  destruct (Hkey History open_brace_key) as (_ & Hh & Hr); [by left|].
  split; [exact Hw|]. split; [reflexivity|].
  split; [intros H; apply Hboth; by split|]. split; [exact Hh|exact Hr].
Defined.

(** ** Diagnostics *)

Lemma collect_bad_filter (names : gset str) (ns : list str) :
  collect_bad names (token <$> ns) = filter (fun n => n ∉ names) ns.
Proof.
  induction ns as [|n ns IH]; [done|].
  cbn [fmap list_fmap collect_bad]. rewrite slice_token, filter_cons.
  destruct (decide (n ∈ names)) as [Hn|Hn].
  - by rewrite decide_False by auto.
  - rewrite decide_True by done. by f_equal.
Qed.

Lemma err_text_join bad : err_text bad = JS.join bad (lit ", ").
Proof. by destruct bad. Qed.

Lemma str_match_Some t vars :
  str_match t = Some vars -> vars = match_all t /\ omap piece_name (pieces t) <> [].
Proof.
  unfold str_match. rewrite match_all_pieces.
  destruct (omap piece_name (pieces t)); [done|]. intros [= <-]. done.
Qed.

Lemma str_match_placeholders t :
  omap piece_name (pieces t) <> [] -> str_match t = Some (match_all t).
Proof.
  unfold str_match. rewrite match_all_pieces.
  by destruct (omap piece_name (pieces t)).
Qed.

(** After a write of a text with at least one match, the diagnostic
    of the buffer is the one the loop computes for that text. *)
Lemma setter_of_err b t s :
  t <> text_of b s ->
  omap piece_name (pieces t) <> [] ->
  err_of b (setter_of b t s)
  = JS.join (unresolved t (name_set (candidate s))) (lit ", ").
Proof.
  intros Hne Hsome. apply str_match_placeholders in Hsome.
  unfold unresolved. rewrite <- collect_bad_filter, <- match_all_pieces, <- err_text_join.
  destruct b; cbn [setter_of err_of text_of] in *.
  - unfold setResponse. rewrite decide_False by done.
    unfold validation_effect. cbn [response with_response candidate hist].
    rewrite Hsome. by destruct (str_match (hist s)).
  - unfold setHistory. rewrite decide_False by done.
    unfold validation_effect. cbn [response with_hist candidate hist].
    rewrite Hsome. by destruct (str_match (response s)).
Qed.




(** ** Stale diagnostics *)

(** C4.  The diagnostic of a buffer is not re-derived when the new text
    has no match: after [{{mp}}] has been replaced by the empty text,
    the response buffer still shows [mp], while a validation of the new
    text from scratch gives the empty diagnostic. *)
Theorem diagnostic_stale_without_match :
  let w := step (fun _ _ => []) empty_props (InputText Response (lit "") 0) mp_world in
  resErr (sig mp_world) = lit "mp" /\
  response (sig w) = lit "" /\
  resErr (sig w) = lit "mp" /\
  fresh_diagnostic (response (sig w)) (candidate (sig w)) = lit "".
Proof. vm_compute. done. Qed.

(** Where the new text has a match, the diagnostic is the fresh one. *)
Lemma diagnostic_fresh_with_match b t s :
  t <> text_of b s ->
  omap piece_name (pieces t) <> [] ->
  err_of b (setter_of b t s) = fresh_diagnostic t (candidate s).
Proof.
  intros Hne Hsome. rewrite setter_of_err by done.
  unfold fresh_diagnostic, unresolved.
  rewrite str_match_placeholders by done.
  by rewrite err_text_join, match_all_pieces, collect_bad_filter.
Qed.

(** ** Import *)

Section ImportChecks.

Variable valid_message : validator -> json -> str.

Lemma assertValid_each_ok v items :
  forallb (shape_ok v) items = true ->
  assertValid_each valid_message v items = inr tt.
Proof.
  induction items as [|x items IH]; [done|]. cbn [forallb assertValid_each].
  intros [Hx Hitems]%andb_true_iff. unfold assertValid at 1. rewrite Hx.
  cbn [bind ret]. by apply IH.
Qed.

Lemma assertValid_each_fail v items :
  forallb (shape_ok v) items = false ->
  exists x, shape_ok v x = false /\
            assertValid_each valid_message v items = inl (valid_message v x).
Proof.
  induction items as [|x items IH]; [done|]. cbn [forallb assertValid_each].
  unfold assertValid at 1. destruct (shape_ok v x) eqn:Hx.
  - cbn [andb bind ret]. apply IH.
  - intros _. by exists x.
Qed.

Lemma shape_ok_any items : forallb (shape_ok VAny) items = true.
Proof. by induction items. Qed.

Lemma shape_ok_obj fields props :
  shape_ok (VObj fields) (JObj props)
  = forallb (fun kv : str * validator =>
               match prop_of props kv.1 with
               | Some x => shape_ok kv.2 x
               | None => false
               end) fields.
Proof. reflexivity. Qed.

Lemma shape_ok_arr v items :
  shape_ok (VArr v) (JArr items) = forallb (shape_ok v) items.
Proof. reflexivity. Qed.

(** A document passes the first check of the dialog and has the fields
    [items], all of the shape of a field or not. *)
Lemma document_shape_split j :
  shape_ok import_shape j = false /\ shape_ok document_shape j = false \/
  exists items,
    shape_ok import_shape j = true /\
    get j "schema" = Some (JArr items) /\
    shape_ok document_shape j = forallb (shape_ok field_shape) items.
Proof.
  destruct j as [| | | | |props]; try (by left).
  unfold import_shape, document_shape, get. rewrite !shape_ok_obj.
  cbn [forallb fst snd].
  destruct (prop_of props (lit "response")) as [r|]; [|by left].
  destruct (shape_ok VString r); [|by left].
  destruct (prop_of props (lit "history")) as [h|]; [|by left].
  destruct (shape_ok VString h); [|by left].
  destruct (prop_of props (lit "schema")) as [[| | | |items|]|]; try (by left).
  right. exists items. rewrite !shape_ok_arr, shape_ok_any.
  cbn [andb]. by rewrite andb_true_r.
Qed.

(** The two checks of the dialog amount to one check of the whole
    document. *)
Lemma document_shape_ok j :
  shape_ok document_shape j = true ->
  parse_and_check valid_message (Parsed j) = inr j.
Proof.
  intros H. unfold parse_and_check. cbn [bind ret].
  destruct (document_shape_split j) as [[_ Hj]|(items & Htop & Hget & Hj)];
    [congruence|].
  unfold assertValid at 1. rewrite Htop, Hget. cbn [bind ret].
  rewrite assertValid_each_ok by congruence. done.
Qed.

Lemma document_shape_fail j :
  shape_ok document_shape j = false ->
  exists v x, shape_ok v x = false /\
              parse_and_check valid_message (Parsed j) = inl (valid_message v x).
Proof.
  intros H. unfold parse_and_check. cbn [bind ret].
  destruct (document_shape_split j) as [[Htop _]|(items & Htop & Hget & Hj)].
  - exists import_shape, j. split; [done|]. unfold assertValid. by rewrite Htop.
  - unfold assertValid at 1. rewrite Htop, Hget. cbn [bind ret].
    rewrite Hj in H.
    destruct (assertValid_each_fail field_shape items H) as (x & Hx & ->).
    by exists field_shape, x.
Qed.

Lemma parse_and_check_inr file j :
  parse_and_check valid_message file = inr j -> file = Parsed j.
Proof.
  unfold parse_and_check. destruct file as [|m|j']; [done..|]. cbn [bind ret].
  destruct (assertValid _ _ _); [done|]. cbn [bind].
  destruct (match get j' "schema" with Some (JArr items) => _ | _ => _ end);
    [done|]. cbn [bind ret]. by intros [= ->].
Qed.

End ImportChecks.

(** ** Commit *)

Lemma committed_with_sig f w : committed (with_sig f w) = committed w.
Proof. reflexivity. Qed.

Lemma committed_with_ref b r w : committed (with_ref b r w) = committed w.
Proof. by destruct b. Qed.

Lemma committed_cancel p w : committed (close p false w) = committed w.
Proof. reflexivity. Qed.

Lemma committed_onFieldNameChange from to w :
  committed (onFieldNameChange from to w) = committed w.
Proof. reflexivity. Qed.

Lemma committed_onAutoComplete setter label w :
  committed (onAutoComplete setter label w) = committed w.
Proof.
  unfold onAutoComplete. destruct (auto_ref (sig w)) as [b|]; [|done].
  destruct (insertion _ _ _ _). by destruct b.
Qed.

(** What a successful import does: the three parts of the candidate
    state are replaced together, and the triple is committed at once. *)
Lemma importSchema_commits p rs w :
  let w' := importSchema p (Some rs) w in
  candidate (sig w') = rs_schema rs /\
  response (sig w') = rs_response rs /\
  hist (sig w') = rs_history rs /\
  updates w' = updates w ++ [rs].
Proof.
  cbn zeta. unfold importSchema, close.
  set (w1 := with_sig (setResponse _) _).
  assert (candidate (sig w1) = rs_schema rs /\ response (sig w1) = rs_response rs /\
          hist (sig w1) = rs_history rs /\ updates w1 = updates w) as (Hc & Hr & Hh & Hu).
  { unfold w1. cbn [with_sig sig updates].
    rewrite setResponse_candidate, setHistory_candidate, setCandidate_candidate.
    rewrite setResponse_response.
    rewrite setResponse_hist, setHistory_hist. done. }
  clearbody w1.
  destruct (truthy (characterId p)), (truthy (presetId p)); cbn;
    rewrite Hc, Hr, Hh, Hu; by destruct rs.
Qed.

(** C5, with the import among the commits. The committed value -- the
    calls of the update callback and of the two stores -- changes only
    by the accept action or by a successful import of a file: a
    successful import replaces schema, response and history of the
    candidate state together and commits that triple at once. *)
Theorem commit_on_accept_or_import
    (valid_message : validator -> json -> str) (p : Props) :
  (forall (e : Event) (w : World),
     committed (step valid_message p e w) <> committed w ->
     e = ClickAccept \/
     exists j, e = ImportFile (Parsed j) /\
               parse_and_check valid_message (Parsed j) = inr j) /\
  (forall (rs : ResponseSchema) (w : World),
     let w' := importSchema p (Some rs) w in
     candidate (sig w') = rs_schema rs /\
     response (sig w') = rs_response rs /\
     hist (sig w') = rs_history rs /\
     updates w' = updates w ++ [rs]).
Proof.
  split; [|apply importSchema_commits].
  intros e w Hchange.
  destruct e as [| | | | |b ev|b text caret|b caret|b label|b|fields|from to|
                 |file|next];
    cbn [step] in Hchange.
  - by exfalso.
  - by exfalso.
  - by exfalso.
  - by exfalso.
  - by left.
  - by exfalso.
  - exfalso. apply Hchange. by destruct b.
  - exfalso. apply Hchange. by destruct b.
  - exfalso. apply Hchange. case_decide; [|done]. apply committed_onAutoComplete.
  - exfalso. apply Hchange. by case_decide.
  - by exfalso.
  - by exfalso.
  - by exfalso.
  - right. unfold onUpdate in Hchange. destruct file as [|m|j]; [done| |].
    + exfalso. by apply Hchange.
    + destruct (parse_and_check valid_message (Parsed j)) as [m|j'] eqn:E; [done|].
      assert (j' = j) as -> by (apply parse_and_check_inr in E; congruence).
      by exists j.
  - by exfalso.
Qed.

Lemma commit_on_accept_or_import_witness :
  committed (step (fun _ _ => []) empty_props (ImportFile (Parsed hp_document))
               (init empty_props))
  <> committed (init empty_props) /\
  (ImportFile (Parsed hp_document) = ClickAccept \/
   exists j, ImportFile (Parsed hp_document) = ImportFile (Parsed j) /\
             parse_and_check (fun _ _ => []) (Parsed j) = inr j).
Proof.
  assert (committed (step (fun _ _ => []) empty_props
                       (ImportFile (Parsed hp_document)) (init empty_props))
          <> committed (init empty_props)) as H by (vm_compute; discriminate).
  split; [exact H|].
  exact (proj1 (commit_on_accept_or_import (fun _ _ => []) empty_props) _ _ H).
Defined.

(** C5 does not hold for an import, which commits by itself: the
    import of a triple hands that triple to the update callback at
    once. *)
Lemma import_commits_without_accept :
  ~ (forall (p : Props) (rs : ResponseSchema) (w : World),
       committed (importSchema p (Some rs) w) = committed w).
Proof.
  intros H.
  specialize (H empty_props (as_ResponseSchema hp_document) (init empty_props)).
  vm_compute in H. discriminate.
Qed.

(** C7, for the shape the dialog checks. When the text of the file
    does not parse, or the parsed document does not have the shape [{
    response: string, history: string, schema: array of { name:
    string, type: { type: string } } }], the import is given up: the
    only thing that happens is an error notification that carries the
    message of the parse error or of the failed shape check; signals,
    textareas and committed value are what they were. *)
Theorem failed_import_only_notifies
    (valid_message : validator -> json -> str) (p : Props)
    (file : upload) (w : World) :
  (exists m, file = Unparsable m) \/
  (exists j, file = Parsed j /\ shape_ok document_shape j = false) ->
  exists message : str,
    step valid_message p (ImportFile file) w
    = log_toast (lit "Invalid JSON Schema: " ++ message) w /\
    (forall m, file = Unparsable m -> message = m) /\
    (forall j, file = Parsed j ->
       exists v x, shape_ok v x = false /\ message = valid_message v x) /\
    sig (step valid_message p (ImportFile file) w) = sig w /\
    respRef (step valid_message p (ImportFile file) w) = respRef w /\
    histRef (step valid_message p (ImportFile file) w) = histRef w /\
    committed (step valid_message p (ImportFile file) w) = committed w.
Proof.
  intros [[m ->]|(j & -> & Hj)]; cbn [step]; unfold onUpdate.
  - exists m. cbn. split_and!; try done. by intros ? [= ->].
  - destruct (document_shape_fail valid_message j Hj) as (v & x & Hx & E).
    rewrite E. exists (valid_message v x). split_and!; try done.
    intros ? _. by exists v, x.
Qed.

Lemma failed_import_only_notifies_witness :
  ((exists m, Unparsable (lit "Unexpected end of JSON input") = Unparsable m) \/
   (exists j, Unparsable (lit "Unexpected end of JSON input") = Parsed j /\
              shape_ok document_shape j = false)) /\
  exists message : str,
    step (fun _ _ => []) hp_props
      (ImportFile (Unparsable (lit "Unexpected end of JSON input"))) (init hp_props)
    = log_toast (lit "Invalid JSON Schema: " ++ message) (init hp_props) /\
    message = lit "Unexpected end of JSON input".
Proof.
  assert ((exists m, Unparsable (lit "Unexpected end of JSON input") = Unparsable m) \/
          (exists j, Unparsable (lit "Unexpected end of JSON input") = Parsed j /\
                     shape_ok document_shape j = false)) as H
    by (left; eexists; reflexivity).
  split; [exact H|].
  destruct (failed_import_only_notifies (fun _ _ => []) hp_props _ (init hp_props) H)
    as (message & Hstep & Hm & _).
  exists message. split; [exact Hstep|]. by apply Hm.
Defined.

(** C7 does not hold for the shape with a string as the type of a
    field: a document whose field has the type
    [{ type: "string" }] does not have that shape, and is imported. *)
Lemma import_accepts_nested_type :
  ~ (forall (valid_message : validator -> json -> str) (p : Props)
            (file : upload) (w : World),
       (exists m, file = Unparsable m) \/
       (exists j, file = Parsed j /\ shape_ok spec_document_shape j = false) ->
       sig (step valid_message p (ImportFile file) w) = sig w).
Proof.
  intros H.
  specialize (H (fun _ _ => []) empty_props (Parsed hp_document) (init empty_props)).
  assert (response (sig (step (fun _ _ => []) empty_props
                           (ImportFile (Parsed hp_document)) (init empty_props)))
          = lit "HP: {{hp}}") as Hnew by (vm_compute; reflexivity).
  rewrite H in Hnew; [by vm_compute in Hnew|].
  right. exists hp_document. split; [done|]. by vm_compute.
Qed.

(** * Further properties *)

(** ** Renames that change nothing *)

Lemma rename_in_same t n : rename_in t n n = t.
Proof.
  remember (length t) as k eqn:Hk. revert t Hk.
  induction k as [k IH] using lt_wf_ind. intros t ->.
  destruct t as [|c t]; [apply rename_nil|].
  destruct (JS.startsWith (c :: t) (token n)) eqn:Hs.
  - apply startsWith_true in Hs as [rest Hs]. rewrite Hs, rename_token.
    f_equal. apply (IH (length rest)); [|done].
    rewrite Hs, length_app, token_length. lia.
  - rewrite rename_cons by done. f_equal.
    apply (IH (length t)); [simpl; lia|done].
Qed.

Lemma setResponse_same s : setResponse (response s) s = s.
Proof. unfold setResponse. by rewrite decide_True. Qed.

Lemma setHistory_same s : setHistory (hist s) s = s.
Proof. unfold setHistory. by rewrite decide_True. Qed.

(** X1.  Renaming a field to the name it has changes no signal: both
    templates and both diagnostics stay as they are, whatever the name
    is, and the textareas show the templates. *)
Theorem rename_to_same_name (n : str) (w : World) :
  let w' := onFieldNameChange n n w in
  sig w' = sig w /\
  value (respRef w') = response (sig w) /\
  value (histRef w') = hist (sig w) /\
  committed w' = committed w.
Proof.
  cbn zeta. unfold onFieldNameChange. rewrite !rename_in_same.
  unfold with_sig, with_value, with_ref. cbn [sig respRef histRef value ref_of].
  by rewrite setResponse_same, setHistory_same.
Qed.

(** The placeholders the scan reports are the placeholders that occur. *)
Lemma placeholder_names_Occurs t n :
  n ∈ placeholder_names t <-> exists i, Occurs t i n.
Proof.
  destruct (match_all_entries t) as (ps & Hin & _ & Hall).
  rewrite match_all_pieces in Hall. fold (placeholder_names t) in Hall.
  assert (placeholder_names t = ps.*2) as ->.
  { apply (inj (fmap token)). rewrite Hall. by rewrite <- list_fmap_compose. }
  rewrite list_elem_of_fmap. split.
  - intros ([i n'] & -> & Hp). exists i. by apply Hin.
  - intros [i Hi]. exists (i, n). split; [done|]. by apply Hin.
Qed.


Lemma rename_in_unreferenced t from to :
  valid_name from -> from ∉ placeholder_names t -> rename_in t from to = t.
Proof.
  intros Hfrom Hno.
  rewrite <- (app_nil_r t) at 1. rewrite rename_copy by
    (try done; intros j _ Hocc; apply Hno, placeholder_names_Occurs;
     exists j; by rewrite app_nil_r in Hocc).
  by rewrite rename_nil, app_nil_r.
Qed.

(** X2.  A rename of a field that neither template refers to changes
    no signal, whatever the new name is. *)
Theorem rename_of_unreferenced_field (from to : str) (w : World) :
  valid_name from ->
  from ∉ placeholder_names (response (sig w)) ->
  from ∉ placeholder_names (hist (sig w)) ->
  let w' := onFieldNameChange from to w in
  sig w' = sig w /\
  value (respRef w') = response (sig w) /\
  value (histRef w') = hist (sig w).
Proof.
  intros Hfrom Hres Hhis. cbn zeta. unfold onFieldNameChange.
  rewrite !rename_in_unreferenced by done.
  unfold with_sig, with_value, with_ref. cbn [sig respRef histRef value ref_of].
  by rewrite setResponse_same, setHistory_same.
Qed.

Lemma rename_of_unreferenced_field_witness :
  valid_name (lit "mana") /\
  (lit "mana" ∉ placeholder_names (response (sig (init hp_props)))) /\
  (lit "mana" ∉ placeholder_names (hist (sig (init hp_props)))) /\
  sig (onFieldNameChange (lit "mana") (lit "}}{{") (init hp_props))
  = sig (init hp_props).
Proof.
  assert (valid_name (lit "mana")) as H1
    by (apply (bool_decide_unpack _); vm_compute; exact I).
  assert (lit "mana" ∉ placeholder_names (response (sig (init hp_props)))) as H2
    by (apply (bool_decide_unpack _); vm_compute; exact I).
  assert (lit "mana" ∉ placeholder_names (hist (sig (init hp_props)))) as H3
    by (apply (bool_decide_unpack _); vm_compute; exact I).
  split; [exact H1|]. split; [exact H2|]. split; [exact H3|].
  exact (proj1 (rename_of_unreferenced_field _ (lit "}}{{") _ H1 H2 H3)).
Defined.

(** ** Renames in a row *)

(** What a rename leaves in the signals and in the textareas. *)
Lemma onFieldNameChange_texts from to w :
  let w' := onFieldNameChange from to w in
  response (sig w') = rename_in (response (sig w)) from to /\
  hist (sig w') = rename_in (hist (sig w)) from to /\
  value (respRef w') = rename_in (response (sig w)) from to /\
  value (histRef w') = rename_in (hist (sig w)) from to.
Proof.
  cbn zeta. unfold onFieldNameChange, with_sig, with_value, with_ref.
  cbn [sig respRef histRef value ref_of].
  by rewrite setHistory_response, setResponse_response, setHistory_hist.
Qed.

Lemma relabel_compose (a b c : str) (p : piece) :
  piece_name p <> Some b ->
  relabel b c (relabel a b p) = relabel a c p.
Proof.
  destruct p as [ch|n]; [done|]. cbn [piece_name relabel]. intros Hn.
  destruct (decide (n = a)) as [->|Hna]; cbn [relabel].
  - by rewrite decide_True.
  - rewrite decide_False; [done|]. congruence.
Qed.

Lemma rename_in_compose t a b c :
  valid_name a -> valid_name b -> valid_name c ->
  b ∉ placeholder_names t ->
  rename_in (rename_in t a b) b c = rename_in t a c.
Proof.
  intros Ha Hb Hc Hno.
  rewrite <- (pieces_text_pieces (rename_in (rename_in t a b) b c)).
  rewrite <- (pieces_text_pieces (rename_in t a c)).
  apply (f_equal pieces_text).
  rewrite (pieces_rename b c Hb Hc), (pieces_rename a b Ha Hb), (pieces_rename a c Ha Hc).
  rewrite <- list_fmap_compose. apply list_fmap_ext.
  intros i p Hp. unfold compose. apply relabel_compose. intros Hpb. apply Hno.
  unfold placeholder_names. apply list_elem_of_omap. exists p.
  split; [|done]. by eapply list_elem_of_lookup_2.
Qed.

(** X3.  Two renames in a row, from [a] to [b] and on to [c], leave the
    templates as one rename from [a] to [c] does, provided the three
    names are placeholder names and the templates did not refer to the
    name in between. *)
Theorem renames_compose (a b c : str) (w : World) :
  valid_name a -> valid_name b -> valid_name c ->
  b ∉ placeholder_names (response (sig w)) ->
  b ∉ placeholder_names (hist (sig w)) ->
  let w2 := onFieldNameChange b c (onFieldNameChange a b w) in
  let w1 := onFieldNameChange a c w in
  response (sig w2) = response (sig w1) /\
  hist (sig w2) = hist (sig w1) /\
  value (respRef w2) = value (respRef w1) /\
  value (histRef w2) = value (histRef w1).
Proof.
  intros Ha Hb Hc Hres Hhis. cbn zeta.
  destruct (onFieldNameChange_texts a b w) as (Hr1 & Hh1 & _ & _).
  destruct (onFieldNameChange_texts b c (onFieldNameChange a b w))
    as (-> & -> & -> & ->).
  destruct (onFieldNameChange_texts a c w) as (-> & -> & -> & ->).
  rewrite Hr1, Hh1.
  rewrite (rename_in_compose (response (sig w)) a b c) by done.
  by rewrite (rename_in_compose (hist (sig w)) a b c) by done.
Qed.

Lemma renames_compose_witness :
  valid_name (lit "hp") /\ valid_name (lit "h") /\ valid_name (lit "health") /\
  (lit "h" ∉ placeholder_names (response (sig (init hp_props)))) /\
  (lit "h" ∉ placeholder_names (hist (sig (init hp_props)))) /\
  response (sig (onFieldNameChange (lit "h") (lit "health")
                   (onFieldNameChange (lit "hp") (lit "h") (init hp_props))))
  = response (sig (onFieldNameChange (lit "hp") (lit "health") (init hp_props))).
Proof.
  assert (valid_name (lit "hp")) as H1
    by (apply (bool_decide_unpack _); vm_compute; exact I).
  assert (valid_name (lit "h")) as H2
    by (apply (bool_decide_unpack _); vm_compute; exact I).
  assert (valid_name (lit "health")) as H3
    by (apply (bool_decide_unpack _); vm_compute; exact I).
  assert (lit "h" ∉ placeholder_names (response (sig (init hp_props)))) as H4
    by (apply (bool_decide_unpack _); vm_compute; exact I).
  assert (lit "h" ∉ placeholder_names (hist (sig (init hp_props)))) as H5
    by (apply (bool_decide_unpack _); vm_compute; exact I).
  split; [exact H1|]. split; [exact H2|]. split; [exact H3|].
  split; [exact H4|]. split; [exact H5|].
  exact (proj1 (renames_compose _ _ _ (init hp_props) H1 H2 H3 H4 H5)).
Defined.

(** ** The two boundaries in closed form *)

Lemma endsWith_take2 s c d :
  JS.endsWith s [c; d] = true -> s = take (length s - 2) s ++ [c; d].
Proof.
  intros [k ->]%bool_decide_eq_true. rewrite length_app. simpl.
  replace (length k + 2 - 2) with (length k) by lia.
  by rewrite take_app_length.
Qed.

Lemma normalize_left_chop s :
  normalize_left s = chop_open_braces s ++ lit "{{".
Proof.
  unfold normalize_left, chop_open_braces.
  destruct (JS.endsWith s (lit "{{")) eqn:H2.
  - by apply endsWith_take2 in H2.
  - destruct (JS.endsWith s (lit "{")) eqn:H1; [|done].
    apply endsWith_take in H1. rewrite H1 at 1. by rewrite <- app_assoc.
Qed.

Lemma normalize_right_open s :
  JS.startsWith s (lit "}") = false -> normalize_right s = lit "}}" ++ s.
Proof. unfold normalize_right. by intros ->. Qed.

Lemma normalize_right_starts s : exists A, normalize_right s = lit "}" ++ A.
Proof.
  unfold normalize_right. destruct (JS.startsWith s (lit "}")) eqn:Hs.
  - apply startsWith_true in Hs as [k ->]. by exists k.
  - by exists (lit "}" ++ s).
Qed.

(** X4.  Whatever the text, the caret and the path, the accepted name
    ends up directly behind [{{] and directly in front of [}], and the
    new caret is right behind the name, inside the new text. *)
Theorem insertion_wraps_name (hk : bool) (prev : str) (caret : Z) (label : str) :
  exists B A : str,
    (insertion hk prev caret label).1 = B ++ lit "{{" ++ label ++ lit "}" ++ A /\
    (insertion hk prev caret label).2 = Z.of_nat (length (B ++ lit "{{" ++ label)) /\
    (0 <= (insertion hk prev caret label).2
       <= Z.of_nat (length (insertion hk prev caret label).1))%Z.
Proof.
  unfold insertion. cbn [fst snd]. rewrite normalize_left_chop.
  destruct (normalize_right_starts (split_after prev caret)) as [A ->].
  exists (chop_open_braces (split_before hk prev caret)), A.
  rewrite <- !app_assoc. split; [done|]. split.
  - rewrite !length_app. lia.
  - rewrite !length_app. lia.
Qed.

(** ** Insertion at a caret inside the text *)

Lemma split_at_caret hk pre c post :
  split_before hk (pre ++ (if hk then [] else [c]) ++ post)
    (Z.of_nat (length (pre ++ (if hk then [] else [c])))) = pre /\
  split_after (pre ++ (if hk then [] else [c]) ++ post)
    (Z.of_nat (length (pre ++ (if hk then [] else [c])))) = post.
Proof.
  unfold split_before, split_after.
  rewrite slice_from_nonneg by lia. rewrite Nat2Z.id.
  rewrite (app_assoc pre), drop_app_length. split; [|done].
  rewrite slice_0_nonneg by (destruct hk; rewrite length_app; simpl; lia).
  destruct hk.
  - rewrite app_nil_r. rewrite Z.sub_0_r, Nat2Z.id. by rewrite take_app_length.
  - rewrite <- app_assoc.
    replace (Z.to_nat _) with (length pre) by (rewrite length_app; simpl; lia).
    by rewrite take_app_length.
Qed.

Lemma insertion_hotkey_closed_form (pre post label : str) :
  insertion true (pre ++ post) (Z.of_nat (length pre)) label
  = (chop_open_braces pre ++ lit "{{" ++ label ++ normalize_right post,
     Z.of_nat (length (chop_open_braces pre ++ lit "{{" ++ label))).
Proof.
  destruct (split_at_caret true pre "{"%char post) as [Hb Ha].
  cbn [app] in Hb, Ha. rewrite app_nil_r in Hb, Ha.
  unfold insertion. rewrite Hb, Ha, normalize_left_chop.
  rewrite <- !app_assoc. f_equal. rewrite !length_app. lia.
Qed.

Lemma insertion_typed_closed_form (pre post label : str) (c : ascii) :
  insertion false (pre ++ [c] ++ post) (Z.of_nat (length (pre ++ [c]))) label
  = (chop_open_braces pre ++ lit "{{" ++ label ++ normalize_right post,
     Z.of_nat (length (chop_open_braces pre ++ lit "{{" ++ label))).
Proof.
  destruct (split_at_caret false pre c post) as [Hb Ha].
  unfold insertion. rewrite Hb, Ha, normalize_left_chop.
  rewrite <- !app_assoc. f_equal. rewrite !length_app. lia.
Qed.

(** X5.  On the hotkey path, with the caret between [pre] and [post],
    the new text is [pre] without the opening braces it ends with (at
    most two), the token's opening braces, the name, and then [post]
    as it is when it starts with a closing brace, and [}}] followed
    by [post] when it does not. *)
Theorem insertion_on_hotkey_path (pre post label : str) :
  insertion true (pre ++ post) (Z.of_nat (length pre)) label
  = (chop_open_braces pre ++ lit "{{" ++ label
       ++ (if JS.startsWith post (lit "}") then post else lit "}}" ++ post),
     Z.of_nat (length (chop_open_braces pre ++ lit "{{" ++ label))).
Proof.
  rewrite insertion_hotkey_closed_form. unfold normalize_right.
  by destruct (JS.startsWith post (lit "}")).
Qed.

(** X6.  On the brace-typed path, with at least one character in front
    of the caret, that character is dropped, whatever it is; the rest
    is as on the hotkey path. *)
Theorem insertion_on_typed_path (pre post label : str) (c : ascii) :
  insertion false (pre ++ [c] ++ post) (Z.of_nat (length (pre ++ [c]))) label
  = (chop_open_braces pre ++ lit "{{" ++ label ++ normalize_right post,
     Z.of_nat (length (chop_open_braces pre ++ lit "{{" ++ label))).
Proof. apply insertion_typed_closed_form. Qed.

Lemma chop_open_braces_snoc pre :
  JS.endsWith pre (lit "{{") = false ->
  chop_open_braces (pre ++ lit "{") = chop_open_braces pre.
Proof.
  intros H2. unfold chop_open_braces. rewrite H2.
  change (lit "{{") with [open_brace; open_brace].
  change (lit "{") with [open_brace] in *.
  rewrite endsWith_snoc_inv, endsWith_app.
  destruct (JS.endsWith pre [open_brace]) eqn:H1.
  - apply bool_decide_eq_true in H1 as [k ->].
    rewrite <- app_assoc, !length_app. cbn [length app].
    replace (length k + (1 + 1) - 2) with (length k) by lia.
    replace (length k + 1 - 1) with (length k) by lia.
    by rewrite !take_app_length.
  - rewrite length_app. cbn [length].
    replace (length pre + 1 - 1) with (length pre) by lia.
    by rewrite take_app_length.
Qed.

(** X7.  When the character in front of the caret is an opening brace
    and the text in front of it does not end with [{{], the two paths
    give the same text and the same caret: a hotkey flag left over from
    an earlier use does no harm then. *)
Theorem insertion_same_on_both_paths (pre post label : str) :
  JS.endsWith pre (lit "{{") = false ->
  insertion true (pre ++ lit "{" ++ post) (Z.of_nat (length (pre ++ lit "{"))) label
  = insertion false (pre ++ lit "{" ++ post) (Z.of_nat (length (pre ++ lit "{"))) label.
Proof.
  intros H2. rewrite (app_assoc pre), insertion_hotkey_closed_form.
  rewrite <- (app_assoc pre). change (lit "{") with [open_brace].
  rewrite insertion_typed_closed_form.
  change [open_brace] with (lit "{"). by rewrite chop_open_braces_snoc.
Qed.

Lemma insertion_same_on_both_paths_witness :
  JS.endsWith (lit "HP: ") (lit "{{") = false /\
  insertion true (lit "HP: " ++ lit "{" ++ lit "%") 5 (lit "hp")
  = insertion false (lit "HP: " ++ lit "{" ++ lit "%") 5 (lit "hp").
Proof.
  assert (JS.endsWith (lit "HP: ") (lit "{{") = false) as H by reflexivity.
  split; [exact H|].
  exact (insertion_same_on_both_paths (lit "HP: ") (lit "%") (lit "hp") H).
Defined.

Example three_braces_differ :
  insertion true (lit "{{{") 3 (lit "hp") = (lit "{{{hp}}", 5%Z) /\
  insertion false (lit "{{{") 3 (lit "hp") = (lit "{{hp}}", 4%Z).
Proof. split; vm_compute; reflexivity. Qed.

(** ** Placeholders around an inserted token *)

Lemma token_no_open_inside k :
  Forall (fun c => c <> open_brace) (k ++ [close_brace; close_brace])
  <-> Forall (fun c => c <> open_brace) k.
Proof.
  rewrite Forall_app. split; [tauto|]. intros H. split; [done|].
  by repeat constructor.
Qed.

Lemma valid_name_no_open k :
  valid_name k -> Forall (fun c => c <> open_brace) (k ++ [close_brace; close_brace]).
Proof.
  intros [_ Hk]. apply token_no_open_inside.
  eapply Forall_impl; [exact Hk|]. intros c Hc ->. apply Hc. by left.
Qed.

(** A mismatch at the head of a text stays one when a token follows the
    text. *)
Lemma mismatch_before_token c t n v :
  valid_name n ->
  JSON_NAME_RE_at (c :: t) = None ->
  JSON_NAME_RE_at (c :: t ++ token n ++ v) = None.
Proof.
  intros Hn Hnone.
  destruct (JSON_NAME_RE_at (c :: t ++ token n ++ v)) as [m|] eqn:E; [exfalso|done].
  apply JSON_NAME_RE_at_Some in E as (k & post & Hk & _ & E).
  change (c :: t ++ token n ++ v) with ((c :: t) ++ token n ++ v) in E.
  apply app_eq_inv in E as [(r & Hu & _)|(r & Htok & HX)].
  - rewrite Hu in Hnone. by rewrite JSON_NAME_RE_at_token in Hnone.
  - destruct r as [|d r].
    { rewrite app_nil_r in Htok. rewrite <- Htok in Hnone.
      rewrite <- (app_nil_r (token k)) in Hnone.
      by rewrite JSON_NAME_RE_at_token in Hnone. }
    rewrite (token_cons n) in HX. cbn [app] in HX. inversion HX as [[Hd Hr]]. subst d.
    rewrite token_cons in Htok. cbn [app] in Htok. inversion Htok as [[Hc Ht]].
    pose proof (valid_name_no_open k Hk) as Hno.
    destruct t as [|d t]; cbn [app] in Ht.
    + inversion Ht as [Hr']. subst r. destruct Hk as [Hne Hk].
      destruct k as [|e k]; [done|]. cbn [app] in Hr. inversion Hr; subst.
      inversion Hk as [|? ? He _]; subst. apply He. by left.
    + inversion Ht as [[Hd Ht']]. rewrite Ht' in Hno.
      apply Forall_app in Hno as [_ Hno]. by inversion Hno.
Qed.

(** The placeholders of a text with a token in it are those in front of
    the token, the token, and those behind it. *)
Lemma match_all_app_token u n v :
  valid_name n ->
  match_all (u ++ token n ++ v) = match_all u ++ token n :: match_all v.
Proof.
  intros Hn. induction u as [|m post Hm IH|c t Hc IH] using scan_ind.
  - cbn [app]. rewrite match_all_token by done. by simp match_all.
  - rewrite <- app_assoc, !match_all_token by done. by rewrite IH.
  - cbn [app]. rewrite !match_all_cons_None by auto using mismatch_before_token.
    done.
Qed.

Lemma placeholder_names_app_token u n v :
  valid_name n ->
  placeholder_names (u ++ token n ++ v)
  = placeholder_names u ++ n :: placeholder_names v.
Proof.
  intros Hn. apply (inj (fmap token)).
  rewrite fmap_app, fmap_cons. unfold placeholder_names.
  rewrite <- !match_all_pieces. by apply match_all_app_token.
Qed.

(** ** Placeholders of a text cut in two *)

Lemma app_prefix_inv {A} (l1 l2 k1 k2 : list A) :
  l1 ++ l2 = k1 ++ k2 -> length k1 <= length l1 -> exists r, l1 = k1 ++ r.
Proof.
  intros [(r & -> & _)|(r & -> & _)]%app_eq_inv Hlen; [by exists r|].
  rewrite length_app in Hlen. destruct r; [|simpl in Hlen; lia].
  exists []. by rewrite !app_nil_r.
Qed.

Lemma caret_outside_tail c t post :
  caret_outside_placeholders (c :: t) post -> caret_outside_placeholders t post.
Proof.
  intros H i n Hocc. destruct (H (S i) n) as [Hin|Hout].
  - cbn [app]. by apply Occurs_S.
  - left. cbn [length] in Hin. lia.
  - right. cbn [length] in Hout. lia.
Qed.

Lemma caret_outside_drop u t post :
  caret_outside_placeholders (u ++ t) post -> caret_outside_placeholders t post.
Proof.
  induction u as [|c u IH]; [done|]. cbn [app]. intros H.
  by apply IH, (caret_outside_tail c).
Qed.

Lemma match_all_cut pre post :
  caret_outside_placeholders pre post ->
  match_all (pre ++ post) = match_all pre ++ match_all post.
Proof.
  induction pre as [|n r Hn IH|c t Hc IH] using scan_ind; intros Hout.
  - by simp match_all.
  - rewrite <- app_assoc, !match_all_token by done. cbn [app]. f_equal.
    apply IH. by apply (caret_outside_drop (token n)).
  - cbn [app]. rewrite (match_all_cons_None c t) by done.
    rewrite match_all_cons_None; [by apply IH, (caret_outside_tail c)|].
    destruct (JSON_NAME_RE_at (c :: t ++ post)) as [m|] eqn:E; [exfalso|done].
    apply JSON_NAME_RE_at_Some in E as (k & post' & Hk & _ & E).
    destruct (Hout 0 k) as [Hin|Hlen].
    + apply Occurs_0. split; [done|]. by exists post'.
    + change (c :: t ++ post) with ((c :: t) ++ post) in E.
      apply app_prefix_inv in E as [r' E]; [|cbn [length Nat.add] in *; lia].
      rewrite E, JSON_NAME_RE_at_token in Hc by done. done.
    + cbn [length] in Hlen. lia.
Qed.

Lemma placeholder_names_cut pre post :
  caret_outside_placeholders pre post ->
  placeholder_names (pre ++ post) = placeholder_names pre ++ placeholder_names post.
Proof.
  intros H. apply (inj (fmap token)). rewrite fmap_app.
  unfold placeholder_names. rewrite <- !match_all_pieces. by apply match_all_cut.
Qed.

(** An opening brace at the end of a text belongs to no placeholder. *)
Lemma match_all_snoc_open u : match_all (u ++ [open_brace]) = match_all u.
Proof.
  induction u as [|n r Hn IH|c t Hc IH] using scan_ind.
  - done.
  - rewrite <- app_assoc, !match_all_token by done. by rewrite IH.
  - cbn [app]. rewrite (match_all_cons_None c t) by done.
    rewrite match_all_cons_None; [done|].
    destruct (JSON_NAME_RE_at (c :: t ++ [open_brace])) as [m|] eqn:E; [exfalso|done].
    apply JSON_NAME_RE_at_Some in E as (k & post' & Hk & _ & E).
    change (c :: t ++ [open_brace]) with ((c :: t) ++ [open_brace]) in E.
    apply app_eq_inv in E as [(r & Hu & _)|(r & Htok & HX)].
    + rewrite Hu, JSON_NAME_RE_at_token in Hc by done. done.
    + destruct r as [|d r].
      { rewrite app_nil_r in Htok. rewrite <- Htok in Hc.
        rewrite <- (app_nil_r (token k)) in Hc.
        by rewrite JSON_NAME_RE_at_token in Hc. }
      destruct r; [|by destruct r]. cbn [app] in HX. inversion HX; subst.
      rewrite token_cons in Htok.
      change (open_brace :: open_brace :: k ++ [close_brace; close_brace])
        with ((open_brace :: open_brace :: k) ++ [close_brace; close_brace]) in Htok.
      change [close_brace; close_brace] with ([close_brace] ++ [close_brace]) in Htok.
      rewrite app_assoc in Htok. by apply app_inj_tail in Htok as [_ Htok].
Qed.

Lemma placeholder_names_snoc_open u :
  placeholder_names (u ++ [open_brace]) = placeholder_names u.
Proof.
  apply (inj (fmap token)). unfold placeholder_names.
  rewrite <- !match_all_pieces. apply match_all_snoc_open.
Qed.

Lemma placeholder_names_chop pre :
  placeholder_names (chop_open_braces pre) = placeholder_names pre.
Proof.
  unfold chop_open_braces.
  destruct (JS.endsWith pre (lit "{{")) eqn:H2.
  - apply bool_decide_eq_true in H2 as [k ->].
    rewrite length_app. change (length (lit "{{")) with 2.
    replace (length k + 2 - 2) with (length k) by lia. rewrite take_app_length.
    change (lit "{{") with ([open_brace] ++ [open_brace]).
    by rewrite app_assoc, !placeholder_names_snoc_open.
  - destruct (JS.endsWith pre (lit "{")) eqn:H1; [|done].
    apply bool_decide_eq_true in H1 as [k ->].
    rewrite length_app. change (length (lit "{")) with 1.
    replace (length k + 1 - 1) with (length k) by lia. rewrite take_app_length.
    change (lit "{") with [open_brace].
    by rewrite placeholder_names_snoc_open.
Qed.

Lemma Occurs_drop t i n :
  Occurs t i n -> JSON_NAME_RE_at (drop i t) = Some (token n).
Proof.
  intros (pre & post & -> & <- & Hn). rewrite drop_app_length.
  by apply JSON_NAME_RE_at_token.
Qed.

Lemma caret_outside_check_spec pre post :
  caret_outside_check pre post = true -> caret_outside_placeholders pre post.
Proof.
  unfold caret_outside_check. rewrite forallb_forall. intros Hall i n Hocc.
  destruct (decide (length pre <= i)) as [|Hi]; [by right|left].
  specialize (Hall i). rewrite (Occurs_drop _ _ _ Hocc) in Hall.
  apply Nat.leb_le, Hall, in_seq. lia.
Qed.

(** X8.  When the accepted name is a placeholder name, the text behind
    the caret does not start with a closing brace, and no placeholder
    of the old text extends across the caret, the new text has the
    placeholders of the old text and exactly one more, the accepted
    name, at the place of the caret.  This holds on the hotkey path,
    and on the brace-typed path when the character in front of the
    caret is the typed opening brace. *)
Theorem insertion_adds_one_placeholder (pre post label : str) :
  valid_name label ->
  JS.startsWith post (lit "}") = false ->
  (caret_outside_placeholders pre post ->
   placeholder_names (pre ++ post)
   = placeholder_names pre ++ placeholder_names post /\
   placeholder_names (insertion true (pre ++ post) (Z.of_nat (length pre)) label).1
   = placeholder_names pre ++ label :: placeholder_names post) /\
  (caret_outside_placeholders (pre ++ lit "{") post ->
   placeholder_names (pre ++ lit "{" ++ post)
   = placeholder_names pre ++ placeholder_names post /\
   placeholder_names
     (insertion false (pre ++ lit "{" ++ post)
        (Z.of_nat (length (pre ++ lit "{"))) label).1
   = placeholder_names pre ++ label :: placeholder_names post).
Proof.
  intros Hl Hpost.
  assert (forall kept,
            placeholder_names (kept ++ lit "{{" ++ label ++ normalize_right post)
            = placeholder_names kept ++ label :: placeholder_names post) as Hnew.
  { intros kept. rewrite normalize_right_open by done.
    replace (lit "{{" ++ label ++ lit "}}" ++ post) with (token label ++ post)
      by (unfold token; by rewrite <- !app_assoc).
    by rewrite placeholder_names_app_token. }
  split; intros Hout.
  - split; [by apply placeholder_names_cut|].
    rewrite insertion_hotkey_closed_form. cbn [fst].
    by rewrite Hnew, placeholder_names_chop.
  - split.
    + rewrite app_assoc, placeholder_names_cut by done.
      change (lit "{") with [open_brace]. by rewrite placeholder_names_snoc_open.
    + change (lit "{") with [open_brace]. rewrite insertion_typed_closed_form.
      cbn [fst]. by rewrite Hnew, placeholder_names_chop.
Qed.

Lemma insertion_adds_one_placeholder_witness :
  valid_name (lit "mp") /\
  JS.startsWith (lit " and {{hp}}") (lit "}") = false /\
  caret_outside_placeholders (lit "{{a}} ") (lit " and {{hp}}") /\
  placeholder_names (lit "{{a}} " ++ lit " and {{hp}}") = [lit "a"; lit "hp"] /\
  placeholder_names
    (insertion true (lit "{{a}} " ++ lit " and {{hp}}")
       (Z.of_nat (length (lit "{{a}} "))) (lit "mp")).1
  = [lit "a"; lit "mp"; lit "hp"].
Proof.
  assert (valid_name (lit "mp")) as H1
    by (apply (bool_decide_unpack _); vm_compute; exact I).
  assert (JS.startsWith (lit " and {{hp}}") (lit "}") = false) as H2 by reflexivity.
  assert (caret_outside_placeholders (lit "{{a}} ") (lit " and {{hp}}")) as H3
    by (apply caret_outside_check_spec; vm_compute; reflexivity).
  split; [exact H1|]. split; [exact H2|]. split; [exact H3|].
  destruct (proj1 (insertion_adds_one_placeholder (lit "{{a}} ") _ _ H1 H2) H3)
    as [Hold Hnew].
  split; [rewrite Hold|rewrite Hnew]; by vm_compute.
Defined.

(** With the caret inside a placeholder the old one is lost. *)
Example insertion_inside_placeholder :
  placeholder_names (lit "{{a" ++ lit "b}}") = [lit "ab"] /\
  placeholder_names
    (insertion true (lit "{{a" ++ lit "b}}") 3 (lit "x")).1 = [lit "x"].
Proof. split; by vm_compute. Qed.

Lemma Occurs_app_length u t i n :
  Occurs (u ++ t) (length u + i) n <-> Occurs t i n.
Proof.
  induction u as [|c u IH]; [done|]. cbn [app length Nat.add].
  by rewrite Occurs_S.
Qed.

(** X9.  On either path and for every caret: when the text behind the
    caret starts with exactly one closing brace, nothing is added
    behind the name.  The name is left with that single closing brace,
    and no placeholder starts at its opening braces, so the validator
    does not see the accepted name there. *)
Theorem insertion_before_single_brace
    (hk : bool) (prev : str) (caret : Z) (rest label : str) :
  valid_name label ->
  split_after prev caret = lit "}" ++ rest ->
  JS.startsWith rest (lit "}") = false ->
  let kept := chop_open_braces (split_before hk prev caret) in
  let next := (insertion hk prev caret label).1 in
  next = kept ++ lit "{{" ++ label ++ lit "}" ++ rest /\
  forall n, ~ Occurs next (length kept) n.
Proof.
  intros [Hne Hl] Hafter Hrest. cbn zeta. unfold insertion. cbn [fst].
  rewrite normalize_left_chop, Hafter.
  assert (normalize_right (lit "}" ++ rest) = lit "}" ++ rest) as ->.
  { unfold normalize_right. by rewrite startsWith_app. }
  rewrite <- !app_assoc. split; [done|]. intros n Hocc.
  rewrite <- (Nat.add_0_r (length _)) in Hocc. apply Occurs_app_length in Hocc.
  apply Occurs_0_match in Hocc.
  cbn [lit list_ascii_of_string app JSON_NAME_RE_at] in Hocc.
  rewrite name_run_app in Hocc; [|done|cbn; by right].
  destruct label as [|l label]; [done|]. cbn [app] in Hocc.
  destruct rest as [|r rest]; [done|].
  apply startsWith_false in Hrest.
  destruct (decide (r = close_brace)) as [->|Hr].
  - destruct Hrest. by exists rest.
  - destruct r as [[] [] [] [] [] [] [] []]; done.
Qed.

Lemma insertion_before_single_brace_witness :
  valid_name (lit "hp") /\
  split_after (lit "HP: {}%") 5 = lit "}" ++ lit "%" /\
  JS.startsWith (lit "%") (lit "}") = false /\
  (insertion false (lit "HP: {}%") 5 (lit "hp")).1 = lit "HP: {{hp}%" /\
  (insertion true (lit "HP: {}%") 5 (lit "hp")).1 = lit "HP: {{hp}%".
Proof.
  assert (valid_name (lit "hp")) as H1
    by (apply (bool_decide_unpack _); vm_compute; exact I).
  assert (split_after (lit "HP: {}%") 5 = lit "}" ++ lit "%") as H2 by reflexivity.
  assert (JS.startsWith (lit "%") (lit "}") = false) as H3 by reflexivity.
  split; [exact H1|]. split; [exact H2|]. split; [exact H3|]. split.
  - exact (proj1 (insertion_before_single_brace false _ 5 _ _ H1 H2 H3)).
  - exact (proj1 (insertion_before_single_brace true _ 5 _ _ H1 H2 H3)).
Defined.

(** ** When a diagnostic is empty *)






(** ** Diagnostics and the field list *)

Lemma name_set_same_names (sch sch' : list JsonField) :
  (forall n, n ∈ name <$> sch <-> n ∈ name <$> sch') ->
  name_set sch = name_set sch'.
Proof.
  intros H. unfold name_set. apply set_eq. intros n.
  by rewrite !elem_of_list_to_set.
Qed.

(** X11.  The diagnostics depend on the candidate fields only through
    the set of their names: two field lists with the same names, in
    whatever order and with whatever repeats and types, give the same
    two diagnostics. *)
Theorem diagnostics_depend_on_name_set (sch sch' : list JsonField) (s : Signals) :
  (forall n, n ∈ name <$> sch <-> n ∈ name <$> sch') ->
  resErr (setCandidate sch s) = resErr (setCandidate sch' s) /\
  histErr (setCandidate sch s) = histErr (setCandidate sch' s).
Proof.
  intros H%name_set_same_names. unfold setCandidate, validation_effect.
  cbn [candidate response hist with_candidate]. rewrite H.
  by destruct (str_match (response s)), (str_match (hist s)).
Qed.

Lemma diagnostics_depend_on_name_set_witness :
  (forall n,
     n ∈ name <$> [ {| name := lit "hp"; type := JNull |};
                    {| name := lit "mp"; type := JNull |} ]
     <-> n ∈ name <$> [ {| name := lit "mp"; type := JStr (lit "x") |};
                        {| name := lit "hp"; type := JNull |};
                        {| name := lit "mp"; type := JNull |} ]) /\
  resErr (setCandidate [ {| name := lit "hp"; type := JNull |};
                         {| name := lit "mp"; type := JNull |} ] (sig (init hp_props)))
  = resErr (setCandidate [ {| name := lit "mp"; type := JStr (lit "x") |};
                           {| name := lit "hp"; type := JNull |};
                           {| name := lit "mp"; type := JNull |} ]
              (sig (init hp_props))).
Proof.
  assert (forall n,
     n ∈ name <$> [ {| name := lit "hp"; type := JNull |};
                    {| name := lit "mp"; type := JNull |} ]
     <-> n ∈ name <$> [ {| name := lit "mp"; type := JStr (lit "x") |};
                        {| name := lit "hp"; type := JNull |};
                        {| name := lit "mp"; type := JNull |} ]) as H.
  { intros n. cbn [fmap list_fmap name]. rewrite !elem_of_cons, !elem_of_nil. tauto. }
  split; [exact H|].
  exact (proj1 (diagnostics_depend_on_name_set _ _ (sig (init hp_props)) H)).
Defined.

(** ** Diagnostics at mount *)

Lemma collect_bad_empty (ns : list str) : collect_bad ∅ (token <$> ns) = ns.
Proof.
  rewrite collect_bad_filter. induction ns as [|n ns IH]; [done|].
  rewrite filter_cons, decide_True by set_solver. by rewrite IH.
Qed.

(** X12.  At mount the candidate list is empty, whatever the inherited
    schema holds: every placeholder of an inherited template is
    reported as undefined, all names joined in order. *)
Theorem mount_reports_every_placeholder (p : Props) (rs : ResponseSchema) :
  inherit p = Some rs ->
  (placeholder_names (rs_response rs) <> [] ->
   resErr (sig (init p)) = JS.join (placeholder_names (rs_response rs)) (lit ", ")) /\
  (placeholder_names (rs_history rs) <> [] ->
   histErr (sig (init p)) = JS.join (placeholder_names (rs_history rs)) (lit ", ")).
Proof.
  intros Hp. unfold init. rewrite Hp. cbn [default sig].
  unfold validation_effect. cbn [response hist candidate].
  change (id rs) with rs. change (name_set []) with (∅ : gset str).
  split; intros Hsome.
  - rewrite (str_match_placeholders _ Hsome), match_all_pieces.
    fold (placeholder_names (rs_response rs)).
    rewrite collect_bad_empty, err_text_join.
    by destruct (str_match (rs_history rs)).
  - rewrite (str_match_placeholders _ Hsome), match_all_pieces.
    fold (placeholder_names (rs_history rs)).
    rewrite collect_bad_empty, err_text_join.
    by destruct (str_match (rs_response rs)).
Qed.

Lemma mount_reports_every_placeholder_witness :
  inherit hp_props
  = Some {| rs_schema := [ {| name := lit "hp"; type := JNull |} ];
            rs_response := lit "HP: {{hp}}% {{mp}}";
            rs_history := lit "{{hp}} of {{hpx}}" |} /\
  placeholder_names (lit "HP: {{hp}}% {{mp}}") <> [] /\
  resErr (sig (init hp_props)) = JS.join (placeholder_names (lit "HP: {{hp}}% {{mp}}")) (lit ", ").
Proof.
  assert (placeholder_names (lit "HP: {{hp}}% {{mp}}") <> []) as H
    by (vm_compute; discriminate).
  split; [reflexivity|]. split; [exact H|].
  exact (proj1 (mount_reports_every_placeholder hp_props _ eq_refl) H).
Defined.

(** ** What a commit hands on *)

Lemma close_true p w :
  let w' := close p true w in
  let u := candidate_triple (sig w) in
  updates w' = updates w ++ [u] /\
  characterEdits w' = characterEdits w ++ store_call (characterId p) u /\
  presetUpdates w' = presetUpdates w ++ store_call (presetId p) u /\
  candidate_triple (sig w') = u /\
  schema (sig w') = candidate (sig w) /\
  resErr (sig w') = [] /\ histErr (sig w') = [] /\ show (sig w') = false.
Proof.
  cbn zeta. unfold close, store_call.
  destruct (truthy (characterId p)), (truthy (presetId p)); cbn;
    rewrite ?app_nil_r; done.
Qed.

(** An event commits nothing, or ends in an accepting [close]. *)
Lemma step_commit_cases
    (valid_message : validator -> json -> str) (p : Props)
    (e : Event) (w : World) :
  committed (step valid_message p e w) = committed w \/
  exists w1, step valid_message p e w = close p true w1 /\
             updates w1 = updates w /\ characterEdits w1 = characterEdits w /\
             presetUpdates w1 = presetUpdates w.
Proof.
  destruct e as [| | | | |b ev|b text caret|b caret|b label|b|fields|from to|
                 |file|next];
    cbn [step]; try (by left).
  - right. by exists w.
  - left. by destruct b.
  - left. by destruct b.
  - left. case_decide; [|done]. apply committed_onAutoComplete.
  - left. by case_decide.
  - unfold onUpdate. destruct file as [|m|j]; [by left|by left|].
    destruct (parse_and_check valid_message (Parsed j)) as [m|j']; [by left|].
    right. by eexists.
Qed.

(** X13.  An event leaves the committed value alone or adds one
    commit to it, never takes one back; a commit hands the update
    callback, and each store whose identifier is set, the same triple,
    which is the texts and candidate fields the session holds
    afterwards, and makes the candidate fields the schema. *)
Theorem commits_are_appended
    (valid_message : validator -> json -> str) (p : Props)
    (e : Event) (w : World) :
  let w' := step valid_message p e w in
  let u := candidate_triple (sig w') in
  committed w' = committed w \/
  (updates w' = updates w ++ [u] /\
   characterEdits w' = characterEdits w ++ store_call (characterId p) u /\
   presetUpdates w' = presetUpdates w ++ store_call (presetId p) u /\
   schema (sig w') = candidate (sig w')).
Proof.
  cbn zeta. destruct (step_commit_cases valid_message p e w)
    as [Hsame|(w1 & -> & Hu & Hc & Hp)]; [by left|right].
  destruct (close_true p w1) as (H1 & H2 & H3 & H4 & H5 & _).
  rewrite H4, H1, H2, H3, H5, Hu, Hc, Hp.
  split_and!; try done. exact (f_equal rs_schema (eq_sym H4)).
Qed.

(** ** Cancel *)

(** X14.  Cancel discards nothing: the texts and the candidate fields
    stay in the session and nothing is committed, so that opening the
    dialog again and accepting commits exactly what accepting instead
    of cancelling would have committed. *)
Theorem cancel_keeps_edits
    (valid_message : validator -> json -> str) (p : Props) (w : World) :
  let cancelled := step valid_message p ClickCancel w in
  let reopened := step valid_message p ClickUpdateSchema cancelled in
  candidate_triple (sig cancelled) = candidate_triple (sig w) /\
  committed cancelled = committed w /\
  committed (step valid_message p ClickAccept reopened)
  = committed (step valid_message p ClickAccept w).
Proof.
  cbn zeta. cbn [step]. split; [done|]. split; [done|].
  unfold committed.
  destruct (close_true p (with_sig (with_show true) (close p false w)))
    as (-> & -> & -> & _).
  destruct (close_true p w) as (-> & -> & -> & _). done.
Qed.

(** ** The committed value coming back *)

Lemma onInherit_same s :
  schema s = candidate s -> onInherit (Some (candidate_triple s)) s = s.
Proof.
  intros Hs. unfold onInherit. cbn [candidate_triple rs_response rs_history rs_schema].
  rewrite decide_True by done. destruct s. cbn in *. by subst.
Qed.

(** X15.  When the parent hands the value it was given at an accept
    back as the inherited value, nothing in the component changes. *)
Theorem committed_value_fed_back
    (valid_message : validator -> json -> str) (p : Props) (w : World) :
  let w' := step valid_message p ClickAccept w in
  last (updates w') = Some (candidate_triple (sig w')) /\
  step valid_message p (InheritChanged (last (updates w'))) w' = w'.
Proof.
  cbn zeta. cbn [step].
  destruct (close_true p w) as (Hu & _ & _ & Ht & Hs & _).
  rewrite Hu, last_snoc, Ht. split; [done|].
  rewrite <- Ht. unfold with_sig. rewrite onInherit_same.
  - by destruct (close p true w).
  - rewrite Hs. exact (f_equal rs_schema (eq_sym Ht)).
Qed.

(** ** The hotkey flag *)

Lemma setResponse_hotkey v s : hotkey (setResponse v s) = hotkey s.
Proof.
  unfold setResponse. case_decide; [done|]. by rewrite validation_effect_hotkey.
Qed.

Lemma setHistory_hotkey v s : hotkey (setHistory v s) = hotkey s.
Proof.
  unfold setHistory. case_decide; [done|]. by rewrite validation_effect_hotkey.
Qed.

Lemma setCandidate_hotkey v s : hotkey (setCandidate v s) = hotkey s.
Proof. unfold setCandidate. by rewrite validation_effect_hotkey. Qed.

Lemma close_hotkey p save w : hotkey (sig (close p save w)) = hotkey (sig w).
Proof.
  unfold close. by destruct save, (truthy (characterId p)), (truthy (presetId p)).
Qed.

Lemma importSchema_hotkey p imported w :
  hotkey (sig (importSchema p imported w)) = hotkey (sig w).
Proof.
  unfold importSchema. destruct imported as [rs|]; [|done].
  rewrite close_hotkey. cbn [with_sig sig].
  by rewrite setResponse_hotkey, setHistory_hotkey, setCandidate_hotkey.
Qed.

Lemma onFieldNameChange_hotkey from to w :
  hotkey (sig (onFieldNameChange from to w)) = hotkey (sig w).
Proof.
  unfold onFieldNameChange. cbn [with_sig sig].
  by rewrite setHistory_hotkey, setResponse_hotkey.
Qed.

Lemma onInherit_hotkey next s : hotkey (onInherit next s) = hotkey s.
Proof.
  unfold onInherit. destruct next as [rs|]; [|done].
  case_decide; [done|]. by rewrite validation_effect_hotkey.
Qed.

Lemma onKeyDown_hotkey b ev s :
  hotkey s = true -> hotkey (onKeyDown b ev s) = true.
Proof.
  intros Hs. unfold onKeyDown.
  destruct (ctrlKey ev && bool_decide (code ev = lit "Space")); [done|].
  by case_decide.
Qed.

Lemma onUpdate_hotkey valid_message p file w :
  hotkey (sig (onUpdate valid_message (importSchema p) file w)) = hotkey (sig w).
Proof.
  unfold onUpdate. destruct file; [done| |];
    (destruct (parse_and_check _ _); [done|apply importSchema_hotkey]).
Qed.

(** X16.  Once the insert hotkey has set its flag, only the acceptance
    of a suggestion clears it: dismissing the list, typing, a rename,
    an import, cancel and accept all leave it set. *)
Theorem hotkey_flag_cleared_only_by_accepting
    (valid_message : validator -> json -> str) (p : Props)
    (e : Event) (w : World) :
  hotkey (sig w) = true ->
  hotkey (sig (step valid_message p e w)) = false ->
  exists b label, e = AutoSelect b label /\ suggesting b w.
Proof.
  intros Hset Hclear.
  destruct e as [| | | | |b ev|b text caret|b caret|b label|b|fields|from to|
                 |file|next];
    cbn [step] in Hclear.
  - cbn in Hclear. congruence.
  - cbn in Hclear. congruence.
  - cbn in Hclear. congruence.
  - rewrite close_hotkey in Hclear. congruence.
  - rewrite close_hotkey in Hclear. congruence.
  - cbn [with_sig sig] in Hclear. rewrite onKeyDown_hotkey in Hclear; done.
  - destruct b; cbn [with_sig with_ref sig setter_of] in Hclear;
      rewrite ?setResponse_hotkey, ?setHistory_hotkey in Hclear; congruence.
  - destruct b; cbn in Hclear; congruence.
  - case_decide; [by exists b, label|congruence].
  - case_decide; cbn in Hclear; congruence.
  - cbn [with_sig sig] in Hclear. rewrite setCandidate_hotkey in Hclear. congruence.
  - rewrite onFieldNameChange_hotkey in Hclear. congruence.
  - rewrite importSchema_hotkey in Hclear. congruence.
  - rewrite onUpdate_hotkey in Hclear. congruence.
  - cbn [with_sig sig] in Hclear. rewrite onInherit_hotkey in Hclear. congruence.
Qed.

Lemma hotkey_flag_cleared_only_by_accepting_witness :
  hotkey (sig hotkey_world) = true /\
  hotkey (sig (step (fun _ _ => []) empty_props (AutoSelect Response (lit "hp"))
                 hotkey_world)) = false /\
  exists b label, AutoSelect Response (lit "hp") = AutoSelect b label /\
                  suggesting b hotkey_world.
Proof.
  assert (hotkey (sig hotkey_world) = true) as H1 by reflexivity.
  assert (hotkey (sig (step (fun _ _ => []) empty_props
                         (AutoSelect Response (lit "hp")) hotkey_world)) = false)
    as H2 by reflexivity.
  split; [exact H1|]. split; [exact H2|].
  exact (hotkey_flag_cleared_only_by_accepting _ _ _ _ H1 H2).
Defined.

(** The list is dismissed and a brace is typed: the flag of the hotkey
    is still set when the suggestions show again. *)
Example hotkey_flag_left_over :
  let dismissed := step (fun _ _ => []) empty_props (AutoClose Response) hotkey_world in
  let typed := step (fun _ _ => []) empty_props (KeyDown History open_brace_key) dismissed in
  auto (sig dismissed) = lit "" /\ hotkey (sig dismissed) = true /\
  suggesting History typed /\ hotkey (sig typed) = true.
Proof. vm_compute. done. Qed.

(** ** Which error an import reports *)

Section ImportErrors.

Variable valid_message : validator -> json -> str.

Lemma assertValid_each_first v good x rest :
  forallb (shape_ok v) good = true ->
  shape_ok v x = false ->
  assertValid_each valid_message v (good ++ x :: rest) = inl (valid_message v x).
Proof.
  intros Hgood Hx. induction good as [|g good IH]; cbn [app assertValid_each].
  - unfold assertValid. by rewrite Hx.
  - cbn [forallb] in Hgood. apply andb_true_iff in Hgood as [Hg Hgood].
    unfold assertValid at 1. rewrite Hg. cbn [bind ret]. by apply IH.
Qed.

(** X17.  The notification of a failed import names one failure: the
    document as a whole when the check of its three keys fails, however
    its fields look, and otherwise the first field that does not have
    the shape of a field; later fields are not looked at. *)
Theorem import_reports_first_failure (p : Props) (j : json) (w : World) :
  (shape_ok import_shape j = false ->
   step valid_message p (ImportFile (Parsed j)) w
   = log_toast (lit "Invalid JSON Schema: " ++ valid_message import_shape j) w) /\
  (forall good x rest,
     shape_ok import_shape j = true ->
     get j "schema" = Some (JArr (good ++ x :: rest)) ->
     forallb (shape_ok field_shape) good = true ->
     shape_ok field_shape x = false ->
     step valid_message p (ImportFile (Parsed j)) w
     = log_toast (lit "Invalid JSON Schema: " ++ valid_message field_shape x) w).
Proof.
  split.
  - intros Htop. cbn [step]. unfold onUpdate, parse_and_check. cbn [bind ret].
    unfold assertValid. by rewrite Htop.
  - intros good x rest Htop Hget Hgood Hx. cbn [step].
    unfold onUpdate, parse_and_check. cbn [bind ret].
    unfold assertValid at 1. rewrite Htop, Hget. cbn [bind ret].
    by rewrite assertValid_each_first.
Qed.

End ImportErrors.


Lemma import_reports_first_failure_witness :
  shape_ok import_shape two_bad_fields_document = true /\
  step (fun v _ => match v with VObj ((k, _) :: _) => k | _ => [] end) empty_props
    (ImportFile (Parsed two_bad_fields_document)) (init empty_props)
  = log_toast (lit "Invalid JSON Schema: type") (init empty_props).
Proof.
  assert (shape_ok import_shape two_bad_fields_document = true) as H1 by reflexivity.
  split; [exact H1|].
  refine (proj2 (import_reports_first_failure
                   (fun v _ => match v with VObj ((k, _) :: _) => k | _ => [] end)
                   empty_props two_bad_fields_document (init empty_props))
            [JObj [(lit "name", JStr (lit "hp"));
                   (lit "type", JObj [(lit "type", JStr (lit "string"))])]]
            (JObj [(lit "type", JObj [(lit "type", JStr (lit "string"))])])
            [JObj [(lit "name", JStr (lit "mp"))]]
            H1 eq_refl eq_refl eq_refl).
Defined.

(** ** The name of the exported file *)

Lemma slice_0_4 id : JS.slice id 0 4 = take 4 id.
Proof. by rewrite slice_0_nonneg. Qed.

(** X18.  The name of the exported file starts with [schema], has at
    most eighteen characters, and is made from at most the first four
    characters of one identifier: of the character when that is set,
    whatever the preset is, else of the preset. *)
Theorem filename_shape (p : Props) :
  lit "schema" `prefix_of` filename p /\
  length (filename p) <= 18 /\
  (forall id, truthy (characterId p) = Some id ->
     filename p = lit "schema-char-" ++ take 4 id) /\
  (forall id, truthy (characterId p) = None -> truthy (presetId p) = Some id ->
     filename p = lit "schema-preset-" ++ take 4 id) /\
  (truthy (characterId p) = None -> truthy (presetId p) = None ->
     filename p = lit "schema").
Proof.
  unfold filename.
  destruct (truthy (characterId p)) as [c|]; [|destruct (truthy (presetId p)) as [q|]];
    rewrite ?slice_0_4.
  - split; [by exists (lit "-char-" ++ take 4 c)|]. split.
    { rewrite length_app, length_take.
      change (length (lit "schema-char-")) with 12. lia. }
    split; [by intros ? [= ->]|]. by split.
  - split; [by exists (lit "-preset-" ++ take 4 q)|]. split.
    { rewrite length_app, length_take.
      change (length (lit "schema-preset-")) with 14. lia. }
    split; [done|]. split; [by intros ? _ [= ->]|done].
  - split; [by exists []|]. split; [cbn; lia|]. by repeat split.
Qed.

Lemma filename_shape_witness :
  truthy (Some (lit "a1b2c3d4")) = Some (lit "a1b2c3d4") /\
  filename {| characterId := Some (lit "a1b2c3d4"); presetId := Some (lit "p");
              inherit := None |} = lit "schema-char-a1b2".
Proof.
  split; [reflexivity|].
  exact (proj1 (proj2 (proj2 (filename_shape
           {| characterId := Some (lit "a1b2c3d4"); presetId := Some (lit "p");
              inherit := None |}))) (lit "a1b2c3d4") eq_refl).
Defined.

(** ** Notifications *)

Lemma toasts_with_sig f w : toasts (with_sig f w) = toasts w.
Proof. reflexivity. Qed.

Lemma toasts_close p save w : toasts (close p save w) = toasts w.
Proof.
  unfold close. by destruct save, (truthy (characterId p)), (truthy (presetId p)).
Qed.

Lemma toasts_importSchema p imported w :
  toasts (importSchema p imported w) = toasts w.
Proof.
  unfold importSchema. destruct imported as [rs|]; [|done]. by rewrite toasts_close.
Qed.

Lemma toasts_onAutoComplete setter label w :
  toasts (onAutoComplete setter label w) = toasts w.
Proof.
  unfold onAutoComplete. destruct (auto_ref (sig w)) as [b|]; [|done].
  destruct (insertion _ _ _ _). by destruct b.
Qed.

(** X19.  The component notifies the user of nothing but a failed
    import: an event that adds a notification is the upload of a file
    that did not parse or did not pass the checks, the notification is
    the one message with its fixed prefix, and no event removes a
    notification. *)
Theorem notifications_only_for_failed_imports
    (valid_message : validator -> json -> str) (p : Props)
    (e : Event) (w : World) :
  toasts (step valid_message p e w) = toasts w \/
  exists file message,
    e = ImportFile file /\
    parse_and_check valid_message file = inl message /\
    step valid_message p e w = log_toast (lit "Invalid JSON Schema: " ++ message) w.
Proof.
  destruct e as [| | | | |b ev|b text caret|b caret|b label|b|fields|from to|
                 |file|next];
    cbn [step].
  - by left.
  - by left.
  - by left.
  - left. apply toasts_close.
  - left. apply toasts_close.
  - by left.
  - left. by destruct b.
  - left. by destruct b.
  - left. case_decide; [|done]. apply toasts_onAutoComplete.
  - left. by case_decide.
  - by left.
  - by left.
  - left. apply toasts_importSchema.
  - unfold onUpdate. destruct file as [|m|j]; [by left| |].
    + right. by exists (Unparsable m), m.
    + destruct (parse_and_check valid_message (Parsed j)) as [m|j'] eqn:E.
      * right. exists (Parsed j), m. by rewrite E.
      * left. apply toasts_importSchema.
  - by left.
Qed.

(** ** Diagnostics after a change of the fields *)


